(** * Rotating playlist manager: a shallow embedding and its properties

    The development follows [rotating-playlist-manager.py].  The script is a
    client of a remote music service reached through a client object [sp];
    every function of the script takes that object as its first argument.

    - Part 1 models the values the script handles: timestamps as parsed by
      [datetime.strptime] with the format ["%Y-%m-%dT%H:%M:%SZ"], the JSON
      shapes of the responses, and the client object as a record of
      operations over a hidden remote state.
    - Part 2 is the small monad in which the script runs: remote state
      passing, the chronological list of remote calls and printed lines,
      Python exceptions, and fuel for the [while True] loops.
    - Part 3 is the script, function by function.
    - Part 4 is a reference remote service (listings served as slices of
      stored lists) against which the end-to-end properties are stated.
    - Part 5 holds the lemmas and the theorems.
    - Part 6 holds further properties of the script, and of
      [get_liked_tracks] and [filter_by_date] of [advanced-search.py], which
      the module [AdvancedSearch] embeds. *)

From Stdlib Require Import ZArith Ascii String List Lia.
From stdpp Require Import base option list strings pretty gmap.

Local Open Scope string_scope.
Local Open Scope list_scope.

(* ===================================================================== *)
(** * Part 1: data                                                        *)
(* ===================================================================== *)

(** ** Timestamps

    A [datetime] is counted in microseconds from 0001-01-01T00:00:00 of the
    proleptic Gregorian calendar, the calendar of Python's [datetime].
    All datetimes of the script are aware and in UTC, so comparing two of
    them is comparing their counts.  The type holds the years 1 to 9999:
    arithmetic that leaves them raises [OverflowError].

    A Python [str] is kept as the bytes of its UTF-8 encoding. *)

Module Datetime.

Local Open Scope Z_scope.

Definition is_leap (y : Z) : bool :=
  (y mod 4 =? 0) && (negb (y mod 100 =? 0) || (y mod 400 =? 0)).

Definition days_in_month (y m : Z) : Z :=
  if m =? 2 then (if is_leap y then 29 else 28)
  else if (m =? 4) || (m =? 6) || (m =? 9) || (m =? 11) then 30
  else 31.

(** Number of days before January 1st of year [y]. *)
Definition days_before_year (y : Z) : Z :=
  let p := y - 1 in p * 365 + p / 4 - p / 100 + p / 400.

(** Number of days of year [y] before the first day of month [m]. *)
Definition days_before_month (y m : Z) : Z :=
  fold_right Z.add 0
    (map (days_in_month y) (map Z.of_nat (seq 1 (Z.to_nat (m - 1))))).

(** Proleptic Gregorian ordinal, January 1st of year 1 being day 1. *)
Definition ymd2ord (y m d : Z) : Z :=
  days_before_year y + days_before_month y m + d.

Definition day_us : Z := 86400 * 1000000.

(** The count of the datetime [y-m-d h:mi:s.us]. *)
Definition datetime (y m d h mi s us : Z) : Z :=
  (((ymd2ord y m d - 1) * 24 + h) * 60 + mi) * 60 * 1000000
  + s * 1000000 + us.

(** [timedelta(days=n)], as a count of microseconds, *)
Definition timedelta_days (n : Z) : Z := n * day_us.

(** which Python builds for [n] of magnitude at most 999999999 only. *)
Definition timedelta_ok (n : Z) : bool := Z.abs n <=? 999999999.

(** [datetime.min] and [datetime.max] *)
Definition min_us : Z := datetime 1 1 1 0 0 0 0.
Definition max_us : Z := datetime 9999 12 31 23 59 59 999999.

Definition representable (t : Z) : bool := (min_us <=? t) && (t <=? max_us).

(** [t - timedelta(days=n)]: [None] stands for the [OverflowError] that the
    construction of the difference or the subtraction raises. *)
Definition minus_days (t n : Z) : option Z :=
  if timedelta_ok n && representable (t - timedelta_days n)
  then Some (t - timedelta_days n)
  else None.

(** *** [datetime.strptime(s, "%Y-%m-%dT%H:%M:%SZ")]

    [strptime] turns the format into a regular expression, one group of
    ordered alternatives per directive, matches it against the start of the
    string ignoring letter case, refuses a match that leaves text
    unconsumed, and then builds the date, which refuses a day the month
    does not have, the year 0 and a second above 59.  Each refusal is a
    [ValueError]: here [None].

    A matcher returns the ways it can consume a prefix, in the order the
    regular-expression engine tries them, each with the number read and
    the text left.

    The expression is a [str] pattern: a class such as [[1-9]] and a literal
    match the ASCII characters they name, and [\d] matches every character
    that Unicode gives a decimal value, which [int] then reads by that
    value. *)

Definition matcher := string -> list (Z * string).

(** The value of an ASCII digit. *)
Definition digit (c : ascii) : option Z :=
  let n := nat_of_ascii c in
  if ((48 <=? n) && (n <=? 57))%nat then Some (Z.of_nat n - 48) else None.

(** One character in the class [[lo-hi]] of ASCII digits. *)
Definition cls (lo hi : Z) : matcher := fun s =>
  match s with
  | String c r =>
      match digit c with
      | Some v => if (lo <=? v) && (v <=? hi) then [(v, r)] else []
      | None => []
      end
  | EmptyString => []
  end.

(** Concatenation of two digit matchers: the value reads in base ten. *)
Definition cat (p q : matcher) : matcher := fun s =>
  flat_map (fun '(v, r) => map (fun '(w, r') => (10 * v + w, r')) (q r)) (p s).

(** Ordered alternation. *)
Definition alt (p q : matcher) : matcher := fun s => (p s ++ q s)%list.

(** A literal character, letter case ignored. *)
Definition lower (c : ascii) : ascii :=
  let n := nat_of_ascii c in
  if ((65 <=? n) && (n <=? 90))%nat then ascii_of_nat (n + 32) else c.

Definition lit (c : ascii) (s : string) : list string :=
  match s with
  | String c' r => if Ascii.eqb (lower c') (lower c) then [r] else []
  | EmptyString => []
  end.

(** The decimal digits of Unicode come in runs of ten, a zero and the nine
    digits that follow it.  These are the code points of the zeros, as of
    Unicode 14.0, the database of CPython 3.11: ASCII first, fullwidth
    (65296) and the mathematical alphabets (120782 to 120822) among the
    rest. *)
Definition zeros : list Z :=
  [48; 1632; 1776; 1984; 2406; 2534; 2662; 2790;
   2918; 3046; 3174; 3302; 3430; 3558; 3664; 3792;
   3872; 4160; 4240; 6112; 6160; 6470; 6608; 6784;
   6800; 6992; 7088; 7232; 7248; 42528; 43216; 43264;
   43472; 43504; 43600; 44016; 65296; 66720; 68912; 69734;
   69872; 69942; 70096; 70384; 70736; 70864; 71248; 71360;
   71472; 71904; 72016; 72784; 73040; 73120; 92768; 92864;
   93008; 120782; 120792; 120802; 120812; 120822; 123200; 123632;
   125264; 130032].

(** The decimal value Unicode gives the code point [cp]. *)
Definition decimal (cp : Z) : option Z :=
  match find (fun z => (z <=? cp) && (cp <? z + 10)) zeros with
  | Some z => Some (cp - z)
  | None => None
  end.

Definition byte (c : ascii) : Z := Z.of_nat (nat_of_ascii c).

(** The payload of a continuation byte of UTF-8. *)
Definition cont (c : ascii) : option Z :=
  let b := byte c in
  if (128 <=? b) && (b <=? 191) then Some (b - 128) else None.

(** The first character of the text, as its code point, and the text behind
    it: [None] for the empty text, and for bytes that encode no character
    (no [str] has them). *)
Definition next (s : string) : option (Z * string) :=
  match s with
  | EmptyString => None
  | String c0 r0 =>
      let b0 := byte c0 in
      if b0 <? 128 then Some (b0, r0)
      else
        match r0 with
        | EmptyString => None
        | String c1 r1 =>
            match cont c1 with
            | None => None
            | Some x1 =>
                if (194 <=? b0) && (b0 <=? 223)
                then Some ((b0 - 192) * 64 + x1, r1)
                else
                  match r1 with
                  | EmptyString => None
                  | String c2 r2 =>
                      match cont c2 with
                      | None => None
                      | Some x2 =>
                          if (224 <=? b0) && (b0 <=? 239)
                          then
                            let cp := ((b0 - 224) * 64 + x1) * 64 + x2 in
                            if 2048 <=? cp then Some (cp, r2) else None
                          else
                            match r2 with
                            | EmptyString => None
                            | String c3 r3 =>
                                match cont c3 with
                                | None => None
                                | Some x3 =>
                                    let cp := (((b0 - 240) * 64 + x1) * 64 + x2)
                                              * 64 + x3 in
                                    if (240 <=? b0) && (b0 <=? 244)
                                       && (65536 <=? cp) && (cp <=? 1114111)
                                    then Some (cp, r3)
                                    else None
                                end
                            end
                      end
                  end
            end
        end
  end.

(** [\d] *)
Definition any_digit : matcher := fun s =>
  match next s with
  | Some (cp, r) =>
      match decimal cp with
      | Some v => [(v, r)]
      | None => []
      end
  | None => []
  end.

(** [%Y]: [\d\d\d\d] *)
Definition dir_Y : matcher := cat (cat (cat any_digit any_digit) any_digit) any_digit.
(** [%m]: [1[0-2]|0[1-9]|[1-9]] *)
Definition dir_m : matcher :=
  alt (cat (cls 1 1) (cls 0 2)) (alt (cat (cls 0 0) (cls 1 9)) (cls 1 9)).
(** [%d]: [3[0-1]|[1-2]\d|0[1-9]|[1-9]| [1-9]] *)
Definition dir_d : matcher :=
  alt (cat (cls 3 3) (cls 0 1))
 (alt (cat (cls 1 2) any_digit)
 (alt (cat (cls 0 0) (cls 1 9))
 (alt (cls 1 9)
      (fun s => flat_map (cls 1 9) (lit " " s))))).
(** [%H]: [2[0-3]|[0-1]\d|\d] *)
Definition dir_H : matcher :=
  alt (cat (cls 2 2) (cls 0 3)) (alt (cat (cls 0 1) any_digit) any_digit).
(** [%M]: [[0-5]\d|\d] *)
Definition dir_M : matcher := alt (cat (cls 0 5) any_digit) any_digit.
(** [%S]: [6[0-1]|[0-5]\d|\d] *)
Definition dir_S : matcher :=
  alt (cat (cls 6 6) (cls 0 1)) (alt (cat (cls 0 5) any_digit) any_digit).

(** The fields of the first match of the whole expression, with the text
    the match leaves. *)
Definition match_format (s : string)
  : option (Z * Z * Z * Z * Z * Z * string) :=
  head (
    flat_map (fun '(yy, s1) => flat_map (fun s2 =>
    flat_map (fun '(mo, s3) => flat_map (fun s4 =>
    flat_map (fun '(dd, s5) => flat_map (fun s6 =>
    flat_map (fun '(hh, s7) => flat_map (fun s8 =>
    flat_map (fun '(mi, s9) => flat_map (fun s10 =>
    flat_map (fun '(ss, s11) =>
      map (fun s12 => (yy, mo, dd, hh, mi, ss, s12)) (lit "Z" s11))
    (dir_S s10)) (lit ":" s9)) (dir_M s8)) (lit ":" s7)) (dir_H s6))
    (lit "T" s5)) (dir_d s4)) (lit "-" s3)) (dir_m s2)) (lit "-" s1))
    (dir_Y s)).

Definition strptime (s : string) : option Z :=
  match match_format s with
  | Some (yy, mo, dd, hh, mi, ss, EmptyString) =>
      if (1 <=? yy) && (dd <=? days_in_month yy mo) && (ss <=? 59)
      then Some (datetime yy mo dd hh mi ss 0)
      else None
  | _ => None
  end.

End Datetime.

(** ** Shapes of the responses

    Only the fields the script reads are kept.  A field the script reads
    with [.get(key, default)] is an [option], [None] standing for an absent
    key; a field it tests against [None] or for truth is an [option], [None]
    standing for JSON [null]. *)

(** [track["id"]] *)
Record Track := { track_id : string }.

(** An entry of the saved-tracks listing: [item["added_at"]] and
    [item["track"]], which the listing of saved tracks always fills. *)
Record SavedItem := { si_added_at : string; si_track : Track }.

(** An entry of the playlist listing: [pl["id"]], [pl["name"]] and
    [pl["owner"]["id"]]. *)
Record Playlist := { pl_id : string; pl_name : string; pl_owner : string }.

(** An entry of a playlist's item listing: [track["track"]], which is
    [null] for an entry whose track is gone. *)
Record PlaylistItem := { it_track : option Track }.

(** The response of [current_user_playlists]: [resp.get("items", [])] and
    [resp["next"]]. *)
Record PlaylistsPage :=
  { pp_items : option (list Playlist); pp_next : option string }.

(** The response of [playlist_items], asked for the fields
    ["items.track.id,next"]: [resp.get("items", [])]. *)
Record ItemsPage := { ip_items : option (list PlaylistItem) }.

(** [resp.get("items", [])] *)
Definition get_items {A} (o : option (list A)) : list A := default [] o.

(** ** The client object

    [sp] is an object with hidden state (the remote service behind it): each
    method takes the state and returns its response with the state after the
    call.  Limits and offsets are the non-negative integers the script
    passes. *)

Record Spotify (St : Type) := {
  current_user : St -> string * St;
  current_user_saved_tracks : nat -> nat -> St -> list SavedItem * St;
  current_user_playlists : nat -> nat -> St -> PlaylistsPage * St;
  user_playlist_create : string -> string -> bool -> St -> string * St;
  playlist_items : string -> nat -> nat -> St -> ItemsPage * St;
  playlist_replace_items : string -> list string -> St -> St;
  playlist_add_items : string -> list string -> St -> St
}.

Arguments current_user {St}.
Arguments current_user_saved_tracks {St}.
Arguments current_user_playlists {St}.
Arguments user_playlist_create {St}.
Arguments playlist_items {St}.
Arguments playlist_replace_items {St}.
Arguments playlist_add_items {St}.

(* ===================================================================== *)
(** * Part 2: the monad of the script                                     *)
(* ===================================================================== *)

(** What a run leaves behind, in the order it happened: the remote calls
    with their arguments (a listing call also records how many items the
    page held, and for the playlist listing whether [next] was set) and the
    printed lines. *)
Inductive Event :=
| Call_current_user
| Call_saved_tracks (limit offset returned : nat)
| Call_user_playlists (limit offset returned : nat) (has_next : bool)
| Call_playlist_items (pid : string) (limit offset returned : nat)
| Call_playlist_create (user name : string) (public : bool)
| Call_replace_items (pid : string) (ids : list string)
| Call_add_items (pid : string) (ids : list string)
| Printed (line : string).

(** The calls that change the remote state. *)
Definition is_write (e : Event) : bool :=
  match e with
  | Call_playlist_create _ _ _ | Call_replace_items _ _ | Call_add_items _ _ =>
      true
  | _ => false
  end.

Definition writes (t : list Event) : list Event := filter is_write t.

Definition is_create (e : Event) : bool :=
  match e with Call_playlist_create _ _ _ => true | _ => false end.

(** The exceptions of the embedded code: [ValueError] from [strptime] and
    [OverflowError] from the arithmetic of dates. *)
Inductive exn := ValueError | OverflowError.

(** The end of a computation: a value, a Python exception, or a [while]
    loop that was cut because the fuel ran out. *)
Inductive res (A : Type) :=
| Ok (a : A)
| Raise (e : exn)
| OutOfFuel.

Arguments Ok {A}.
Arguments Raise {A}.
Arguments OutOfFuel {A}.

Definition M (St A : Type) : Type := St -> res A * St * list Event.

Definition ret {St A} (a : A) : M St A := fun s => (Ok a, s, []).

Definition bind {St A B} (m : M St A) (k : A -> M St B) : M St B := fun s =>
  match m s with
  | (Ok a, s1, t1) => let '(r, s2, t2) := k a s1 in (r, s2, t1 ++ t2)%list
  | (Raise e, s1, t1) => (Raise e, s1, t1)
  | (OutOfFuel, s1, t1) => (OutOfFuel, s1, t1)
  end.

Definition raise {St A} (e : exn) : M St A := fun s => (Raise e, s, []).
Definition out_of_fuel {St A} : M St A := fun s => (OutOfFuel, s, []).
Definition emit {St} (e : Event) : M St unit := fun s => (Ok tt, s, [e]).
Definition print {St} (line : string) : M St unit := emit (Printed line).

(** A pure step that may raise. *)
Definition lift {St A} (r : res A) : M St A := fun s => (r, s, []).

Notation "'let!' x ':=' m 'in' k" := (bind m (fun x => k))
  (at level 10, x name, m at level 100, k at level 200).
Notation "'run!' m 'in' k" := (bind m (fun _ => k))
  (at level 10, m at level 100, k at level 200).

(** [for x in l: body x] *)
Fixpoint for_each {St A} (l : list A) (body : A -> M St unit) : M St unit :=
  match l with
  | [] => ret tt
  | x :: l' => run! body x in for_each l' body
  end.

(** Projections of a finished run. *)
Definition result {St A} (x : res A * St * list Event) : res A := x.1.1.
Definition final {St A} (x : res A * St * list Event) : St := x.1.2.
Definition trace {St A} (x : res A * St * list Event) : list Event := x.2.

(** ** The remote calls as the script issues them *)

Section Calls.
Context {St : Type} (sp : Spotify St).

Definition sp_current_user : M St string := fun s =>
  let '(u, s') := current_user sp s in (Ok u, s', [Call_current_user]).

Definition sp_saved_tracks (limit offset : nat) : M St (list SavedItem) :=
  fun s =>
  let '(items, s') := current_user_saved_tracks sp limit offset s in
  (Ok items, s', [Call_saved_tracks limit offset (length items)]).

Definition sp_user_playlists (limit offset : nat) : M St PlaylistsPage :=
  fun s =>
  let '(resp, s') := current_user_playlists sp limit offset s in
  (Ok resp, s',
   [Call_user_playlists limit offset (length (get_items (pp_items resp)))
      (bool_decide (pp_next resp ≠ None))]).

Definition sp_playlist_create (user name : string) (public : bool)
  : M St string := fun s =>
  let '(i, s') := user_playlist_create sp user name public s in
  (Ok i, s', [Call_playlist_create user name public]).

Definition sp_playlist_items (pid : string) (limit offset : nat)
  : M St ItemsPage := fun s =>
  let '(resp, s') := playlist_items sp pid limit offset s in
  (Ok resp, s',
   [Call_playlist_items pid limit offset (length (get_items (ip_items resp)))]).

Definition sp_replace_items (pid : string) (ids : list string) : M St unit :=
  fun s => (Ok tt, playlist_replace_items sp pid ids s,
            [Call_replace_items pid ids]).

Definition sp_add_items (pid : string) (ids : list string) : M St unit :=
  fun s => (Ok tt, playlist_add_items sp pid ids s, [Call_add_items pid ids]).

End Calls.

(* ===================================================================== *)
(** * Part 3: the script                                                  *)
(* ===================================================================== *)

Definition MONTHS_BACK : Z := 12.
Definition PLURAL : string := if (1 <? MONTHS_BACK)%Z then "s" else "".
Definition ROTATION_NAME : string :=
  "Rotation: Last " +:+ pretty MONTHS_BACK +:+ " Month" +:+ PLURAL.

(** [range(start, stop, step)] for a positive step. *)
Definition range (start stop step : nat) : list nat :=
  map (fun k => start + k * step) (seq 0 ((stop - start + step - 1) / step)).

(** [l[i:j]] for [0 <= i] and [0 <= j]. *)
Definition slice {A} (i j : nat) (l : list A) : list A := take (j - i) (drop i l).

(** How the [for] loop over one page of saved tracks ends: by falling
    through to the rest of the [while] body, or by [return results]. *)
Inductive flow :=
| Continue (results : list string)
| Return (results : list string).

(** The [for item in items] loop of [fetch_liked_tracks]. *)
Fixpoint scan_saved (cutoff : Z) (items : list SavedItem)
    (results : list string) : res flow :=
  match items with
  | [] => Ok (Continue results)
  | item :: rest =>
      match Datetime.strptime (si_added_at item) with
      | None => Raise ValueError
      | Some added_at =>
          if (cutoff <=? added_at)%Z
          then scan_saved cutoff rest (results ++ [track_id (si_track item)])
          else Ok (Return results)
      end
  end.

(** [pl["name"] == name and pl["owner"]["id"] == user_id] *)
Definition matches (user_id name : string) (pl : Playlist) : bool :=
  String.eqb (pl_name pl) name && String.eqb (pl_owner pl) user_id.

(** [track["track"]["id"] for track in items if track["track"]] *)
Definition present_ids (items : list PlaylistItem) : list string :=
  omap (fun track => track_id <$> it_track track) items.

(** The [for pl in playlists] loop of [main]: prints every name it passes
    and stops at the first playlist named [ROTATION_NAME]. *)
Fixpoint select_target {St} (playlists : list Playlist) : M St (option string) :=
  match playlists with
  | [] => ret None
  | pl :: rest =>
      run! print (String "009" "-" +:+ pl_name pl) in
      if String.eqb (pl_name pl) ROTATION_NAME
      then run! print "Match found" in ret (Some (pl_id pl))
      else select_target rest
  end.

Section Script.
Context {St : Type} (sp : Spotify St).

(** The [while True] loop of [fetch_liked_tracks]. *)
Fixpoint fetch_liked_loop (cutoff : Z) (fuel offset : nat)
    (results : list string) : M St (list string) :=
  match fuel with
  | 0 => out_of_fuel
  | S fuel' =>
      let! items := sp_saved_tracks sp 50 offset in
      match items with
      | [] => ret results
      | _ :: _ =>
          let! f := lift (scan_saved cutoff items results) in
          match f with
          | Return results' => ret results'
          | Continue results' =>
              fetch_liked_loop cutoff fuel' (offset + length items) results'
          end
      end
  end.

(** [now] is what [datetime.now(timezone.utc)] returns.  The cutoff is
    computed before the first request, and the computation raises when
    [months * 30] days back is no date. *)
Definition fetch_liked_tracks (fuel : nat) (now : Z) (months : Z)
  : M St (list string) :=
  match Datetime.minus_days now (months * 30) with
  | Some cutoff => fetch_liked_loop cutoff fuel 0 []
  | None => raise OverflowError
  end.

(** The [while True] loop of [get_all_user_playlists]. *)
Fixpoint get_all_loop (fuel offset : nat) (playlists : list Playlist)
  : M St (list Playlist) :=
  match fuel with
  | 0 => out_of_fuel
  | S fuel' =>
      let! response := sp_user_playlists sp 50 offset in
      let items := get_items (pp_items response) in
      match items with
      | [] => ret playlists
      | _ :: _ =>
          get_all_loop fuel' (offset + length items) (playlists ++ items)
      end
  end.

Definition get_all_user_playlists (fuel : nat) : M St (list Playlist) :=
  get_all_loop fuel 0 [].

(** The [while True] loop of [find_or_create_playlist]: [Some id] when the
    loop returns a match, [None] when it breaks. *)
Fixpoint find_loop (user_id name : string) (fuel offset : nat)
  : M St (option string) :=
  match fuel with
  | 0 => out_of_fuel
  | S fuel' =>
      let! resp := sp_user_playlists sp 50 offset in
      match find (matches user_id name) (get_items (pp_items resp)) with
      | Some pl => ret (Some (pl_id pl))
      | None =>
          match pp_next resp with
          | None => ret None
          | Some _ => find_loop user_id name fuel' (offset + 50)
          end
      end
  end.

Definition find_or_create_playlist (fuel : nat) (user_id name : string)
  : M St string :=
  let! found := find_loop user_id name fuel 0 in
  match found with
  | Some i => ret i
  | None => sp_playlist_create sp user_id name false
  end.

(** The [while True] loop of [get_playlist_track_ids]. *)
Fixpoint track_ids_loop (playlist_id : string) (fuel offset : nat)
    (ids : list string) : M St (list string) :=
  match fuel with
  | 0 => out_of_fuel
  | S fuel' =>
      let! resp := sp_playlist_items sp playlist_id 100 offset in
      let items := get_items (ip_items resp) in
      match items with
      | [] => ret ids
      | _ :: _ =>
          track_ids_loop playlist_id fuel' (offset + length items)
            (ids ++ present_ids items)
      end
  end.

Definition get_playlist_track_ids (fuel : nat) (playlist_id : string)
  : M St (list string) :=
  track_ids_loop playlist_id fuel 0 [].

(** [set(existing_ids) == set(new_track_ids)] *)
Definition same_set (existing_ids new_track_ids : list string) : bool :=
  bool_decide
    (list_to_set existing_ids =@{gset string} list_to_set new_track_ids).

Definition update_playlist_if_needed (fuel : nat) (playlist_id : string)
    (new_track_ids : list string) : M St unit :=
  let! existing_ids := get_playlist_track_ids fuel playlist_id in
  if same_set existing_ids new_track_ids
  then print "Playlist is already up to date."
  else
    run! sp_replace_items sp playlist_id (slice 0 100 new_track_ids) in
    run! for_each (range 100 (length new_track_ids) 100) (fun i =>
           sp_add_items sp playlist_id (slice i (i + 100) new_track_ids)) in
    print ("Updated playlist with " +:+ pretty (length new_track_ids)
           +:+ " tracks.").

Definition main (fuel : nat) (now : Z) : M St unit :=
  let! user_id := sp_current_user sp in
  let! track_ids := fetch_liked_tracks fuel now MONTHS_BACK in
  run! print ("Found " +:+ pretty (length track_ids)
              +:+ " liked tracks from last " +:+ pretty MONTHS_BACK
              +:+ " months.") in
  run! print ("Target Playlist: " +:+ ROTATION_NAME) in
  let! playlists := get_all_user_playlists fuel in
  let skip_generation := (length playlists <? 1)%nat in
  run! (if skip_generation
        then print "No playlists found. Likely an error/rate limit, skipping playlist generation to avoid duplicates"
        else ret tt) in
  if negb skip_generation then
    run! print "Searching user playlists..." in
    let! target_playlist := select_target playlists in
    match target_playlist with
    | None =>
        run! print "Target playlist not found, creating new playlist..." in
        let! target_playlist :=
          find_or_create_playlist fuel user_id ROTATION_NAME in
        update_playlist_if_needed fuel target_playlist track_ids
    | Some target_playlist =>
        run! print "Target playlist found, checking for updates..." in
        update_playlist_if_needed fuel target_playlist track_ids
    end
  else ret tt.

End Script.

(* ===================================================================== *)
(** * Part 4: a reference remote service                                  *)
(* ===================================================================== *)

(** The remote service is not part of the script.  The end-to-end
    properties are stated against this reference service, which keeps what
    the boundary operations need: the identity behind the client, the
    saved-track library (newest first is the service's promise, not a
    constraint of the record), the playlists the listing shows, and the
    items of each playlist.  A listing call serves the stored list from
    [offset] on, at most [limit] items and at most [cap] items, [cap] being
    the most the service is willing to put on one page; [next] is set when
    items remain after the page. *)

Record Remote := {
  me : string;
  saved : list SavedItem;
  listing : list Playlist;
  contents : gmap string (list PlaylistItem);
  created : nat
}.

Definition page {A} (cap limit offset : nat) (l : list A) : list A :=
  take (limit `min` cap) (drop offset l).

Definition next_link {A} (cap limit offset : nat) (l : list A)
  : option string :=
  if (offset + (limit `min` cap) <? length l)%nat then Some "next" else None.

(** The items of playlist [pid]; none for an identifier the service does
    not know. *)
Definition items_of (r : Remote) (pid : string) : list PlaylistItem :=
  default [] (contents r !! pid).

Definition item_of (i : string) : PlaylistItem :=
  {| it_track := Some {| track_id := i |} |}.

Definition set_contents (r : Remote) (c : gmap string (list PlaylistItem))
  : Remote :=
  {| me := me r; saved := saved r; listing := listing r; contents := c;
     created := created r |}.

(** A new playlist is empty, is owned by the user it is created for, gets
    an identifier minted from a counter, and heads the listing. *)
Definition create (user name : string) (r : Remote) : string * Remote :=
  let i := "playlist-" +:+ pretty (created r) in
  (i, {| me := me r; saved := saved r;
         listing := {| pl_id := i; pl_name := name; pl_owner := user |}
                    :: listing r;
         contents := <[i := []]> (contents r);
         created := S (created r) |}).

Definition spotify (cap : nat) : Spotify Remote := {|
  current_user := fun r => (me r, r);
  current_user_saved_tracks := fun limit offset r =>
    (page cap limit offset (saved r), r);
  current_user_playlists := fun limit offset r =>
    ({| pp_items := Some (page cap limit offset (listing r));
        pp_next := next_link cap limit offset (listing r) |}, r);
  user_playlist_create := fun user name _ r => create user name r;
  playlist_items := fun pid limit offset r =>
    ({| ip_items := Some (page cap limit offset (items_of r pid)) |}, r);
  playlist_replace_items := fun pid ids r =>
    set_contents r (<[pid := map item_of ids]> (contents r));
  playlist_add_items := fun pid ids r =>
    set_contents r (<[pid := items_of r pid ++ map item_of ids]> (contents r))
|}.

(** ** Predicates on the saved-track library *)

(** [added_at >= cutoff], for an entry whose timestamp parses. *)
Definition in_window (cutoff : Z) (item : SavedItem) : bool :=
  match Datetime.strptime (si_added_at item) with
  | Some t => (cutoff <=? t)%Z
  | None => false
  end.

(** [added_at < cutoff], for an entry whose timestamp parses. *)
Definition older (cutoff : Z) (item : SavedItem) : bool :=
  match Datetime.strptime (si_added_at item) with
  | Some t => (t <? cutoff)%Z
  | None => false
  end.

(** Every timestamp parses and none is newer than the one before it. *)
Fixpoint newest_first_from (prev : option Z) (l : list SavedItem) : bool :=
  match l with
  | [] => true
  | item :: rest =>
      match Datetime.strptime (si_added_at item) with
      | Some t =>
          match prev with Some p => (t <=? p)%Z | None => true end
          && newest_first_from (Some t) rest
      | None => false
      end
  end.

Definition newest_first (l : list SavedItem) : bool := newest_first_from None l.

Definition saved_ids (l : list SavedItem) : list string :=
  map (fun item => track_id (si_track item)) l.

(* ===================================================================== *)
(** * Part 5: properties                                                  *)
(* ===================================================================== *)

(** ** Vocabulary of the statements *)

(** The state after the [for] loop of appends, run from state [s]. *)
Definition add_all {St} (sp : Spotify St) (pid : string)
    (chunks : list (list string)) (s : St) : St :=
  fold_left (fun s c => playlist_add_items sp pid c s) chunks s.

(** The chunks the appends of [update_playlist_if_needed] send. *)
Definition appended (new_track_ids : list string) : list (list string) :=
  map (fun i => slice i (i + 100) new_track_ids)
      (range 100 (length new_track_ids) 100).

(** The number of appends for [n] desired identifiers. *)
Definition appends (n : nat) : nat := (n - 100 + 100 - 1) / 100.

(** What the loop of [fetch_liked_tracks] does at the entry that ends the
    window, [post] being the library from that entry on. *)
Definition stop_result (cutoff : Z) (results : list string)
    (post : list SavedItem) : res (list string) :=
  match post with
  | [] => Ok results
  | item :: _ => if older cutoff item then Ok results else Raise ValueError
  end.

(** [post] starts with an entry that is not within the window, or is empty. *)
Definition stops (cutoff : Z) (post : list SavedItem) : bool :=
  match post with
  | [] => true
  | item :: _ => negb (in_window cutoff item)
  end.

(** Pages needed for [k] entries at [ps] entries per page: [k / ps] rounded
    up. *)
Definition pages (k ps : nat) : nat := (k + ps - 1) / ps.

(** A request for a page of saved tracks at an offset of at most [bound]. *)
Definition saved_call_upto (bound : nat) (e : Event) : Prop :=
  exists o n, e = Call_saved_tracks 50 o n /\ o <= bound.

(** How many playlists of the listing bear [name] and belong to [user]. *)
Definition count_matching (user name : string) (r : Remote) : nat :=
  length (List.filter (matches user name) (listing r)).

(** The comparison of the [for] loop of [main]. *)
Definition named_target (pl : Playlist) : bool :=
  String.eqb (pl_name pl) ROTATION_NAME.

Definition warning : string :=
  "No playlists found. Likely an error/rate limit, skipping playlist generation to avoid duplicates".

Definition up_to_date : string := "Playlist is already up to date.".

(** The offset and the number of items returned of a listing call. *)
Definition page_read (e : Event) : option (nat * nat) :=
  match e with
  | Call_saved_tracks _ o n
  | Call_user_playlists _ o n _
  | Call_playlist_items _ _ o n => Some (o, n)
  | _ => None
  end.

Definition page_reads (t : list Event) : list (nat * nat) := omap page_read t.

(** Each read starts where the one before it ended: at the offset of that
    read plus the number of items it returned. *)
Fixpoint advances_by_returned (offset : nat) (reads : list (nat * nat))
  : bool :=
  match reads with
  | [] => true
  | (o, n) :: rest => (o =? offset)%nat && advances_by_returned (o + n) rest
  end.

(** No read follows a read that returned no item. *)
Fixpoint stops_at_empty (reads : list (nat * nat)) : bool :=
  match reads with
  | [] => true
  | (_, n) :: rest =>
      match rest with
      | [] => true
      | _ :: _ => negb (n =? 0)%nat && stops_at_empty rest
      end
  end.

Definition walks_by_returned (offset : nat) (t : list Event) : Prop :=
  advances_by_returned offset (page_reads t) = true
  /\ stops_at_empty (page_reads t) = true.

(** ** Accounts used in the concrete runs *)

Module Examples.

Definition entry (added_at i : string) : SavedItem :=
  {| si_added_at := added_at; si_track := {| track_id := i |} |}.

(** 2024-06-15T12:00:00 UTC; twelve months of thirty days earlier is
    2023-06-21T12:00:00. *)
Definition now : Z := Datetime.datetime 2024 6 15 12 0 0 0.

Definition account (tracks : list SavedItem) (pls : list Playlist)
    (c : gmap string (list PlaylistItem)) : Remote :=
  {| me := "me"; saved := tracks; listing := pls; contents := c; created := 0 |}.

(** A playlist that holds C, B, A in this order. *)
Definition shuffled : Remote :=
  account [] [] {[ "p" := map item_of ["C"; "B"; "A"] ]}.

(** The identifiers "0", "1", ... *)
Definition numbered (n : nat) : list string := map pretty (seq 0 n).

(** One entry a day after the cutoff, one a day before it. *)
Definition around_cutoff : Remote :=
  account [entry "2023-06-22T12:00:00Z" "in"; entry "2023-06-20T12:00:00Z" "out"]
    [] ∅.

(** 500 entries of which the first 30 are within the window. *)
Definition long_library : Remote :=
  account (replicate 30 (entry "2024-06-01T00:00:00Z" "new")
           ++ replicate 470 (entry "2020-01-01T00:00:00Z" "old")) [] ∅.

(** An entry whose timestamp does not parse, behind an entry older than the
    cutoff. *)
Definition bad_after_window : Remote :=
  account [entry "2020-01-01T00:00:00Z" "old"; entry "yesterday" "bad"] [] ∅.

(** An entry whose timestamp does not parse, behind an entry within the
    window. *)
Definition bad_in_window : Remote :=
  account [entry "2024-06-01T00:00:00Z" "new"; entry "yesterday" "bad"] [] ∅.

(** A playlist with an entry whose track is [null] between A and B. *)
Definition with_null : Remote :=
  account [] []
    {[ "p" := [item_of "A"; {| it_track := None |}; item_of "B"] ]}.

Definition filler (n : nat) : Playlist :=
  {| pl_id := "id-" +:+ pretty n; pl_name := "Mix " +:+ pretty n;
     pl_owner := "me" |}.

(** Thirty-four playlists and then the target, all owned by the caller. *)
Definition crowded : Remote :=
  account [] (map filler (seq 0 34)
              ++ [{| pl_id := "target"; pl_name := ROTATION_NAME;
                     pl_owner := "me" |}]) ∅.

(** The caller follows a playlist of someone else that bears the name of
    the target. *)
Definition followed : Remote :=
  account [entry "2024-06-01T00:00:00Z" "A"]
    [{| pl_id := "theirs"; pl_name := ROTATION_NAME; pl_owner := "someone" |}]
    {[ "theirs" := [item_of "X"] ]}.

(** An account whose listing is empty. *)
Definition no_playlists : Remote :=
  account [entry "2024-06-01T00:00:00Z" "A"] [] ∅.

End Examples.

(** ** Vocabulary of the statements of Part 6 *)

(** A request for a page of saved tracks, of playlists, of the items of
    playlist [pid], with the limit the script passes. *)
Definition saved_read (e : Event) : Prop :=
  exists o n, e = Call_saved_tracks 50 o n.
Definition listing_read (e : Event) : Prop :=
  exists o n b, e = Call_user_playlists 50 o n b.
Definition items_read (pid : string) (e : Event) : Prop :=
  exists o n, e = Call_playlist_items pid 100 o n.

(** An event that is no create call, and that, if it replaces or appends
    items, does so on playlist [pid] and with at most 100 identifiers. *)
Definition bounded_write_on (pid : string) (e : Event) : Prop :=
  match e with
  | Call_playlist_create _ _ _ => False
  | Call_replace_items p ids | Call_add_items p ids =>
      p = pid /\ length ids <= 100
  | _ => True
  end.

(** The create calls of a trace. *)
Definition creates (t : list Event) : list Event := filter is_create t.

(** What a remote state holds apart from the items of its playlists. *)
Definition account_of (r : Remote) : string * list SavedItem * list Playlist * nat :=
  (me r, saved r, listing r, created r).

(** The cutoff of [main]. *)
Definition main_cutoff (now : Z) : Z :=
  (now - Datetime.timedelta_days (MONTHS_BACK * 30))%Z.

(** The window [main] computes from the library of [r]. *)
Definition main_window (now : Z) (r : Remote) : list string :=
  saved_ids (List.filter (in_window (main_cutoff now)) (saved r)).

(** The writes of an update that finds the sets different. *)
Definition rewrite_calls (pid : string) (new : list string) : list Event :=
  Call_replace_items pid (take 100 new)
  :: map (Call_add_items pid) (appended new).

(** ** advanced-search.py

    The script has a client object of its own, a module-level [sp], of which
    it calls [current_user_saved_tracks] and reads ["items"] and ["next"].
    Of an item of the listing, [get_liked_tracks] and [filter_by_date] read
    [item["added_at"]] only and hand the item on as it is. *)

Module AdvancedSearch.

(** The response of [current_user_saved_tracks]: [batch["items"]] and
    [batch["next"]]. *)
Record Batch := { b_items : list SavedItem; b_next : option string }.

Record Client (St : Type) := {
  current_user_saved_tracks : nat -> nat -> St -> Batch * St
}.

Arguments current_user_saved_tracks {St}.

Definition sp_saved_tracks {St} (sp : Client St) (limit offset : nat)
  : M St Batch := fun s =>
  let '(batch, s') := current_user_saved_tracks sp limit offset s in
  (Ok batch, s', [Call_saved_tracks limit offset (length (b_items batch))]).

(** [start_date and added_at < start_date]: a datetime is never false, so
    the test of [start_date] is one against [None]. *)
Definition before (start_date : option Z) (added_at : Z) : bool :=
  match start_date with
  | Some s => (added_at <? s)%Z
  | None => false
  end.

(** [end_date and added_at > end_date] *)
Definition after (end_date : option Z) (added_at : Z) : bool :=
  match end_date with
  | Some e => (e <? added_at)%Z
  | None => false
  end.

(** The [for] loop of [filter_by_date]. *)
Fixpoint filter_loop (start end_ : option Z) (tracks filtered : list SavedItem)
  : res (list SavedItem) :=
  match tracks with
  | [] => Ok filtered
  | item :: rest =>
      match Datetime.strptime (si_added_at item) with
      | None => Raise ValueError
      | Some added_at =>
          if before start added_at then filter_loop start end_ rest filtered
          else if after end_ added_at then filter_loop start end_ rest filtered
          else filter_loop start end_ rest (filtered ++ [item])
      end
  end.

Definition filter_by_date (tracks : list SavedItem) (start end_ : option Z)
  : res (list SavedItem) :=
  filter_loop start end_ tracks [].

(** How the [for] loop over one batch ends, with the results and the count
    the progress bar shows. *)
Inductive flow :=
| Continue (results : list SavedItem) (pbar : nat)
| Return (results : list SavedItem) (pbar : nat).

(** The [for item in items] loop of [get_liked_tracks]. *)
Fixpoint scan_batch (start_date end_date : option Z) (items : list SavedItem)
    (results : list SavedItem) (pbar : nat) : res flow :=
  match items with
  | [] => Ok (Continue results pbar)
  | item :: rest =>
      match Datetime.strptime (si_added_at item) with
      | None => Raise ValueError
      | Some added_at =>
          if before start_date added_at then Ok (Return results pbar)
          else if before start_date added_at
          then scan_batch start_date end_date rest results pbar
          else if after end_date added_at
          then scan_batch start_date end_date rest results pbar
          else scan_batch start_date end_date rest (results ++ [item])
                 (pbar + 1)
      end
  end.

Definition limit : nat := 50.

(** The [while True] loop of [get_liked_tracks], inside [with tqdm(...) as
    pbar]: it yields the results with the count of the bar. *)
Fixpoint liked_loop {St} (sp : Client St) (start_date end_date : option Z)
    (fuel offset : nat) (results : list SavedItem) (pbar : nat)
  : M St (list SavedItem * nat) :=
  match fuel with
  | 0 => out_of_fuel
  | S fuel' =>
      let! batch := sp_saved_tracks sp limit offset in
      let items := b_items batch in
      match items with
      | [] => ret (results, pbar)
      | _ :: _ =>
          let! f := lift (scan_batch start_date end_date items results pbar) in
          match f with
          | Return results' pbar' => ret (results', pbar')
          | Continue results' pbar' =>
              match b_next batch with
              | None => ret (results', pbar')
              | Some _ =>
                  liked_loop sp start_date end_date fuel' (offset + limit)
                    results' pbar'
              end
          end
      end
  end.

Definition get_liked_tracks {St} (sp : Client St) (fuel : nat)
    (start_date end_date : option Z) : M St (list SavedItem) :=
  let! finished := liked_loop sp start_date end_date fuel 0 [] 0 in
  ret finished.1.

(** The client of the reference service. *)
Definition library (cap : nat) : Client Remote := {|
  current_user_saved_tracks := fun limit offset r =>
    ({| b_items := page cap limit offset (saved r);
        b_next := next_link cap limit offset (saved r) |}, r)
|}.

(** [start <= added_at <= end], for an entry whose timestamp parses. *)
Definition in_range (start end_ : option Z) (item : SavedItem) : bool :=
  match Datetime.strptime (si_added_at item) with
  | Some t => negb (before start t) && negb (after end_ t)
  | None => false
  end.

(** The timestamp parses and is not before [start]. *)
Definition not_before (start : option Z) (item : SavedItem) : bool :=
  match Datetime.strptime (si_added_at item) with
  | Some t => negb (before start t)
  | None => false
  end.

Definition parses (item : SavedItem) : bool :=
  match Datetime.strptime (si_added_at item) with
  | Some _ => true
  | None => false
  end.

(** What the loop of [get_liked_tracks] does at the entry that ends its
    walk, [post] being the library from that entry on. *)
Definition liked_stop (results : list SavedItem) (pbar : nat)
    (post : list SavedItem) : res (list SavedItem * nat) :=
  match post with
  | [] => Ok (results, pbar)
  | item :: _ => if parses item then Ok (results, pbar) else Raise ValueError
  end.

(** [post] is empty or starts with an entry that ends the walk. *)
Definition liked_stops (start : option Z) (post : list SavedItem) : bool :=
  match post with
  | [] => true
  | item :: _ => negb (not_before start item)
  end.

End AdvancedSearch.

(** ** Accounts and libraries of the concrete runs of Part 6 *)

Module Cases.

(** Two playlists with items: "p" holds A, "q" holds X and Y. *)
Definition two_lists : Remote :=
  Examples.account [] []
    {[ "p" := map item_of ["A"]; "q" := map item_of ["X"; "Y"] ]}.

(** Two entries within the window of [Examples.now] and one older than its
    cutoff, newest first. *)
Definition liked : list SavedItem :=
  [Examples.entry "2024-06-01T00:00:00Z" "A";
   Examples.entry "2024-03-01T00:00:00Z" "B";
   Examples.entry "2020-01-01T00:00:00Z" "C"].

(** One playlist, of another name. *)
Definition unnamed : Remote := Examples.account liked [Examples.filler 0] ∅.

(** Two playlists of the name of the target behind one of another name;
    the first holds Z, the second holds A. *)
Definition two_named : Remote :=
  Examples.account liked
    [Examples.filler 0;
     {| pl_id := "first"; pl_name := ROTATION_NAME; pl_owner := "me" |};
     {| pl_id := "second"; pl_name := ROTATION_NAME; pl_owner := "me" |}]
    {[ "first" := [item_of "Z"]; "second" := [item_of "A"] ]}.

(** 2024-02-01 and 2024-04-01, midnight. *)
Definition february : Z := Datetime.datetime 2024 2 1 0 0 0 0.
Definition april : Z := Datetime.datetime 2024 4 1 0 0 0 0.

(** A library of four entries, newest first, of which B alone lies between
    [february] and [april]. *)
Definition shelf : list SavedItem :=
  [Examples.entry "2024-06-01T00:00:00Z" "A";
   Examples.entry "2024-03-01T00:00:00Z" "B";
   Examples.entry "2024-01-01T00:00:00Z" "C";
   Examples.entry "2020-01-01T00:00:00Z" "D"].

(** 120 entries of March 2024 ahead of 300 entries of 2020. *)
Definition long_shelf : list SavedItem :=
  replicate 120 (Examples.entry "2024-03-01T00:00:00Z" "B")
  ++ replicate 300 (Examples.entry "2020-01-01T00:00:00Z" "D").

End Cases.

(** ** Timestamps that parse and timestamps that do not *)

(** [\d] reads a digit of any script and [int] takes its value, the
    literals ignore letter case, a field may be short of its width; a date
    that does not exist, a second above 59, a digit of another script where
    the expression names ASCII ones, and text left over are refused. *)
Lemma strptime_samples :
  let june := Some (Datetime.datetime 2024 6 1 0 0 0 0) in
  Datetime.strptime "2024-06-01T00:00:00Z" = june
  /\ Datetime.strptime "２０２４-06-01T00:00:00Z" = june
  /\ Datetime.strptime "٢٠٢٤-06-01T0٠:0٠:0٠Z" = june
  /\ Datetime.strptime "٢٠٢٤-06-01T0٠:٠٠:٠٠Z" = None
  /\ Datetime.strptime "2024-6-1t0:0:0z" = june
  /\ Datetime.strptime "2024-02-29T23:59:59Z"
     = Some (Datetime.datetime 2024 2 29 23 59 59 0)
  /\ Datetime.strptime "2023-02-29T00:00:00Z" = None
  /\ Datetime.strptime "2024-06-01T00:00:60Z" = None
  /\ Datetime.strptime "0000-06-01T00:00:00Z" = None
  /\ Datetime.strptime "2024-０６-01T00:00:00Z" = None
  /\ Datetime.strptime "2024-06-01T00:00:00Z " = None
  /\ Datetime.strptime "2024-06-01T00:00:00" = None
  /\ Datetime.strptime "yesterday" = None.
Proof. vm_compute. done. Qed.

(** The dates [datetime] holds, and the subtraction at their ends. *)
Lemma minus_days_samples :
  Datetime.min_us = 0%Z
  /\ Datetime.max_us = (3652059 * Datetime.day_us - 1)%Z
  /\ Datetime.minus_days (Datetime.datetime 1 12 27 0 0 0 0) 360
     = Some (Datetime.datetime 1 1 1 0 0 0 0)
  /\ Datetime.minus_days (Datetime.datetime 1 12 26 23 59 59 999999) 360 = None
  /\ Datetime.minus_days (Datetime.datetime 2024 6 15 0 0 0 0) 900000 = None
  /\ Datetime.minus_days (Datetime.datetime 2024 6 15 0 0 0 0) (-9000000)
     = None
  /\ Datetime.minus_days Datetime.max_us 0 = Some Datetime.max_us.
Proof. vm_compute. done. Qed.

(** ** Running the monad *)

Lemma writes_app (t1 t2 : list Event) :
  writes (t1 ++ t2) = writes t1 ++ writes t2.
Proof. apply filter_app. Qed.

Lemma writes_reads_then (t w : list Event) :
  writes t = [] -> writes (t ++ w) = writes w.
Proof. intros H. rewrite writes_app, H. reflexivity. Qed.

Lemma no_write_no_create (t : list Event) :
  writes t = [] -> filter is_create t = [].
Proof.
  unfold writes. induction t as [|e t IH]; [done|].
  destruct e; cbn; rewrite ?decide_True, ?decide_False by (cbn; tauto);
    try done.
Qed.

Lemma writes_adds pid (chunks : list (list string)) (line : string) :
  writes (map (Call_add_items pid) chunks ++ [Printed line])
  = map (Call_add_items pid) chunks.
Proof.
  induction chunks as [|c chunks IH]; [reflexivity|].
  cbn [map app]. unfold writes in *. cbn [filter list_filter is_write].
  rewrite decide_True by done. f_equal. exact IH.
Qed.

Section Generic.
Context {St : Type} (sp : Spotify St).

Lemma bind_ok {A B} (m : M St A) (k : A -> M St B) s a s1 t1 :
  m s = (Ok a, s1, t1) ->
  bind m k s = (result (k a s1), final (k a s1), t1 ++ trace (k a s1)).
Proof.
  intros H. unfold bind. rewrite H.
  destruct (k a s1) as [[r s2] t2]. reflexivity.
Qed.

Lemma bind_raise {A B} (m : M St A) (k : A -> M St B) s e s1 t1 :
  m s = (Raise e, s1, t1) -> bind m k s = (Raise e, s1, t1).
Proof. intros H. unfold bind. rewrite H. reflexivity. Qed.

Lemma run_ok {A} (x : res A * St * list Event) a s :
  result x = Ok a -> final x = s -> x = (Ok a, s, trace x).
Proof. destruct x as [[? ?] ?]. cbn. congruence. Qed.

Lemma sp_current_user_run s u s1 :
  current_user sp s = (u, s1) ->
  sp_current_user sp s = (Ok u, s1, [Call_current_user]).
Proof. intros H. unfold sp_current_user. rewrite H. reflexivity. Qed.

Lemma sp_user_playlists_run limit offset s resp s1 :
  current_user_playlists sp limit offset s = (resp, s1) ->
  sp_user_playlists sp limit offset s
  = (Ok resp, s1,
     [Call_user_playlists limit offset (length (get_items (pp_items resp)))
        (bool_decide (pp_next resp ≠ None))]).
Proof. intros H. unfold sp_user_playlists. rewrite H. reflexivity. Qed.

(** *** The reading loops issue no write *)

Lemma track_ids_loop_no_write pid fuel : forall offset ids s,
  writes (trace (track_ids_loop sp pid fuel offset ids s)) = [].
Proof.
  induction fuel as [|fuel IH]; intros offset ids s; [reflexivity|].
  cbn [track_ids_loop]. unfold bind, sp_playlist_items.
  destruct (playlist_items sp pid 100 offset s) as [resp s1].
  destruct (get_items (ip_items resp)) as [|i items] eqn:E; [reflexivity|].
  specialize (IH (offset + length (i :: items))
                 (ids ++ present_ids (i :: items)) s1).
  destruct (track_ids_loop _ _ _ _ _ _) as [[r s2] t2]. exact IH.
Qed.

Lemma fetch_liked_loop_no_write cutoff fuel : forall offset results s,
  writes (trace (fetch_liked_loop sp cutoff fuel offset results s)) = [].
Proof.
  induction fuel as [|fuel IH]; intros offset results s; [reflexivity|].
  cbn [fetch_liked_loop]. unfold bind at 1. unfold sp_saved_tracks.
  destruct (current_user_saved_tracks sp 50 offset s) as [items s1].
  destruct items as [|i items]; [reflexivity|].
  unfold bind, lift.
  destruct (scan_saved cutoff (i :: items) results) as [[res|res]|e|];
    try reflexivity.
  specialize (IH (offset + length (i :: items)) res s1).
  destruct (fetch_liked_loop _ _ _ _ _ _) as [[r s2] t2]. exact IH.
Qed.

(** The cutoff, when there is one, is the plain difference. *)
Lemma minus_days_some t n c :
  Datetime.minus_days t n = Some c -> c = (t - Datetime.timedelta_days n)%Z.
Proof.
  unfold Datetime.minus_days.
  destruct (_ && _); [intros [= <-]; reflexivity|discriminate].
Qed.

(** [fetch_liked_tracks] either raises at once or is its loop. *)
Lemma fetch_liked_tracks_run fuel now months s :
  fetch_liked_tracks sp fuel now months s
  = match Datetime.minus_days now (months * 30) with
    | Some _ =>
        fetch_liked_loop sp (now - Datetime.timedelta_days (months * 30))%Z
          fuel 0 [] s
    | None => (Raise OverflowError, s, [])
    end.
Proof.
  unfold fetch_liked_tracks.
  destruct (Datetime.minus_days now (months * 30)) as [c|] eqn:E;
    [|reflexivity].
  rewrite (minus_days_some _ _ _ E). reflexivity.
Qed.

Lemma fetch_liked_tracks_no_write fuel now months s :
  writes (trace (fetch_liked_tracks sp fuel now months s)) = [].
Proof.
  rewrite fetch_liked_tracks_run.
  destruct (Datetime.minus_days now (months * 30));
    [apply fetch_liked_loop_no_write|reflexivity].
Qed.

Lemma find_loop_no_write user name fuel : forall offset s,
  writes (trace (find_loop sp user name fuel offset s)) = [].
Proof.
  induction fuel as [|fuel IH]; intros offset s; [reflexivity|].
  cbn [find_loop]. unfold bind, sp_user_playlists.
  destruct (current_user_playlists sp 50 offset s) as [resp s1].
  destruct (find _ _); [reflexivity|].
  destruct (pp_next resp); [|reflexivity].
  specialize (IH (offset + 50) s1).
  destruct (find_loop _ _ _ _ _ _) as [[r s2] t2]. exact IH.
Qed.

(** *** The loops that advance by [len(items)] *)

Lemma walks_by_returned_cons offset e n t :
  page_read e = Some (offset, S n) ->
  walks_by_returned (offset + S n) t ->
  walks_by_returned offset (e :: t).
Proof.
  intros He [Ha Hs]. unfold walks_by_returned, page_reads in *.
  cbn [omap list_omap]. rewrite He. cbn [advances_by_returned stops_at_empty].
  rewrite Nat.eqb_refl, Ha. split; [reflexivity|].
  destruct (omap page_read t); [reflexivity|]. exact Hs.
Qed.

Lemma fetch_liked_loop_walk cutoff fuel : forall offset results s,
  walks_by_returned offset
    (trace (fetch_liked_loop sp cutoff fuel offset results s)).
Proof.
  induction fuel as [|fuel IH]; intros offset results s; [done|].
  cbn [fetch_liked_loop]. unfold bind at 1. unfold sp_saved_tracks.
  destruct (current_user_saved_tracks sp 50 offset s) as [items s1].
  destruct items as [|i items].
  { unfold walks_by_returned. cbn. rewrite Nat.eqb_refl. done. }
  unfold bind, lift.
  destruct (scan_saved cutoff (i :: items) results) as [[res|res]|e|];
    try (unfold walks_by_returned; cbn; rewrite Nat.eqb_refl; done).
  specialize (IH (offset + length (i :: items)) res s1).
  destruct (fetch_liked_loop _ _ _ _ _ _) as [[r s2] t2].
  cbn [trace snd app] in *.
  eapply walks_by_returned_cons; [reflexivity|exact IH].
Qed.

Lemma get_all_loop_walk fuel : forall offset playlists s,
  walks_by_returned offset (trace (get_all_loop sp fuel offset playlists s)).
Proof.
  induction fuel as [|fuel IH]; intros offset playlists s; [done|].
  cbn [get_all_loop]. unfold bind, sp_user_playlists.
  destruct (current_user_playlists sp 50 offset s) as [resp s1].
  destruct (get_items (pp_items resp)) as [|i items].
  { unfold walks_by_returned. cbn. rewrite Nat.eqb_refl. done. }
  specialize (IH (offset + length (i :: items)) (playlists ++ i :: items) s1).
  destruct (get_all_loop _ _ _ _ _) as [[r s2] t2].
  cbn [trace snd app] in *.
  eapply walks_by_returned_cons; [reflexivity|exact IH].
Qed.

Lemma track_ids_loop_walk pid fuel : forall offset ids s,
  walks_by_returned offset (trace (track_ids_loop sp pid fuel offset ids s)).
Proof.
  induction fuel as [|fuel IH]; intros offset ids s; [done|].
  cbn [track_ids_loop]. unfold bind, sp_playlist_items.
  destruct (playlist_items sp pid 100 offset s) as [resp s1].
  destruct (get_items (ip_items resp)) as [|i items].
  { unfold walks_by_returned. cbn. rewrite Nat.eqb_refl. done. }
  specialize (IH (offset + length (i :: items))
                 (ids ++ present_ids (i :: items)) s1).
  destruct (track_ids_loop _ _ _ _ _ _) as [[r s2] t2].
  cbn [trace snd app] in *.
  eapply walks_by_returned_cons; [reflexivity|exact IH].
Qed.

(** *** The selection of [main] and the update *)

Lemma select_target_by_name (playlists : list Playlist) (s : St) :
  result (select_target playlists s)
  = Ok (pl_id <$> find named_target playlists)
  /\ final (select_target playlists s) = s.
Proof.
  induction playlists as [|pl rest IH]; [done|].
  cbn [select_target find]. unfold named_target at 1.
  rewrite (bind_ok _ _ s tt s _ eq_refl).
  destruct (String.eqb (pl_name pl) ROTATION_NAME).
  - rewrite (bind_ok _ _ s tt s _ eq_refl). done.
  - cbn [result final fst snd]. exact IH.
Qed.

Lemma for_each_add pid (f : nat -> list string) (l : list nat) : forall s,
  for_each l (fun i => sp_add_items sp pid (f i)) s
  = (Ok tt, add_all sp pid (map f l) s,
     map (fun i => Call_add_items pid (f i)) l).
Proof.
  induction l as [|i l IH]; intros s; [reflexivity|].
  cbn [for_each]. unfold bind at 1. unfold sp_add_items at 1.
  rewrite IH. reflexivity.
Qed.

Lemma add_all_cons pid c chunks s :
  add_all sp pid (c :: chunks) s
  = add_all sp pid chunks (playlist_add_items sp pid c s).
Proof. reflexivity. Qed.

Lemma update_run fuel pid new s existing s1 t1 :
  get_playlist_track_ids sp fuel pid s = (Ok existing, s1, t1) ->
  update_playlist_if_needed sp fuel pid new s =
    if same_set existing new
    then (Ok tt, s1, t1 ++ [Printed up_to_date])
    else (Ok tt,
          add_all sp pid (appended new)
            (playlist_replace_items sp pid (slice 0 100 new) s1),
          t1 ++ Call_replace_items pid (slice 0 100 new)
             :: map (Call_add_items pid) (appended new)
             ++ [Printed ("Updated playlist with " +:+ pretty (length new)
                          +:+ " tracks.")]).
Proof.
  intros H. unfold update_playlist_if_needed.
  rewrite (bind_ok _ _ _ _ _ _ H).
  destruct (same_set existing new); [reflexivity|].
  rewrite (bind_ok _ _ s1 tt _ _ eq_refl).
  rewrite (bind_ok _ _ _ tt _ _ (for_each_add _ _ _ _)).
  unfold print, emit. cbn [result final trace fst snd].
  unfold appended. rewrite !map_map. reflexivity.
Qed.

End Generic.

(** ** Arithmetic of the chunks *)

Lemma slice_take_drop {A} (i : nat) (l : list A) :
  slice i (i + 100) l = take 100 (drop i l).
Proof. unfold slice. replace (i + 100 - i) with 100 by lia. reflexivity. Qed.

Lemma slice_0 {A} (l : list A) : slice 0 100 l = take 100 l.
Proof. reflexivity. Qed.

Lemma appends_cover n : n <= 100 + appends n * 100.
Proof.
  unfold appends.
  pose proof (Nat.div_mod_eq (n - 100 + 100 - 1) 100) as E.
  pose proof (Nat.mod_upper_bound (n - 100 + 100 - 1) 100) as B.
  lia.
Qed.

Lemma appends_last n : 0 < appends n -> 100 + (appends n - 1) * 100 < n.
Proof.
  unfold appends.
  pose proof (Nat.div_mod_eq (n - 100 + 100 - 1) 100) as E.
  pose proof (Nat.mod_upper_bound (n - 100 + 100 - 1) 100) as B.
  lia.
Qed.

Lemma appended_eq (l : list string) :
  appended l = map (fun k => take 100 (drop (100 + k * 100) l))
                   (seq 0 (appends (length l))).
Proof.
  unfold appended, range, appends. rewrite map_map.
  apply map_ext. intros k. apply slice_take_drop.
Qed.

Lemma concat_chunks {A} (l : list A) n : forall a,
  concat (map (fun k => take 100 (drop (100 + k * 100) l)) (seq a n))
  = take (n * 100) (drop (100 + a * 100) l).
Proof.
  induction n as [|n IH]; intros a; [reflexivity|].
  cbn [seq map concat]. rewrite IH.
  replace (100 + S a * 100) with ((100 + a * 100) + 100) by lia.
  rewrite <- (drop_drop l 100 (100 + a * 100)).
  replace (S n * 100) with (100 + n * 100) by lia.
  apply take_take_drop.
Qed.

Lemma appended_concat (l : list string) :
  take 100 l ++ concat (appended l) = l.
Proof.
  rewrite appended_eq, concat_chunks.
  replace (100 + 0 * 100) with 100 by lia.
  rewrite (take_ge (drop 100 l)).
  - apply take_drop.
  - rewrite length_drop. pose proof (appends_cover (length l)). lia.
Qed.

Lemma appended_length (l : list string) :
  length (appended l) = appends (length l).
Proof. rewrite appended_eq, length_map, length_seq. reflexivity. Qed.

Lemma appended_lookup (l : list string) k c :
  appended l !! k = Some c ->
  k < appends (length l) /\ c = take 100 (drop (100 + k * 100) l).
Proof.
  rewrite appended_eq, list_lookup_fmap.
  destruct (seq 0 (appends (length l)) !! k) as [j|] eqn:E; [|discriminate].
  apply lookup_seq in E as [-> Hk]. intros [= <-].
  split; [exact Hk|reflexivity].
Qed.

Lemma appended_sizes (l : list string) :
  Forall (fun c => 1 <= length c <= 100) (appended l).
Proof.
  apply Forall_lookup. intros k c Hc.
  apply appended_lookup in Hc as [Hk ->].
  rewrite length_take, length_drop.
  pose proof (appends_last (length l)). nia.
Qed.

Lemma appended_full (l : list string) k c :
  appended l !! k = Some c -> S k < length (appended l) -> length c = 100.
Proof.
  intros Hc Hk. rewrite appended_length in Hk.
  apply appended_lookup in Hc as [_ ->].
  rewrite length_take, length_drop.
  pose proof (appends_last (length l)). nia.
Qed.

Lemma appended_250 (l : list string) :
  length l = 250 -> appended l = [take 100 (drop 100 l); drop 200 l].
Proof.
  intros H. rewrite appended_eq, H.
  change (appends 250) with 2. cbn [seq map].
  f_equal. f_equal. apply take_ge. rewrite length_drop. lia.
Qed.

(** ** The comparison of the two sets *)

Lemma same_set_true (a b : list string) :
  same_set a b = true <-> list_to_set a =@{gset string} list_to_set b.
Proof. unfold same_set. apply bool_decide_eq_true. Qed.

Lemma same_set_false (a b : list string) :
  same_set a b = false <-> list_to_set a ≠@{gset string} list_to_set b.
Proof. unfold same_set. apply bool_decide_eq_false. Qed.

(** ** Pages of the reference service *)

Lemma page_nil {A} cap limit offset (l : list A) :
  0 < cap -> 0 < limit -> page cap limit offset l = [] -> drop offset l = [].
Proof.
  unfold page. intros Hc Hl H.
  destruct (drop offset l) as [|x d]; [reflexivity|].
  destruct (limit `min` cap) eqn:E; [lia|discriminate].
Qed.

Lemma page_split {A} cap limit offset (l : list A) :
  drop offset l
  = page cap limit offset l
    ++ drop (offset + length (page cap limit offset l)) l.
Proof.
  unfold page. set (m := limit `min` cap). set (d := drop offset l).
  rewrite <- drop_drop. fold d.
  rewrite length_take.
  destruct (Nat.le_ge_cases m (length d)) as [H|H].
  - rewrite Nat.min_l by exact H. symmetry. apply take_drop.
  - rewrite Nat.min_r by exact H. rewrite take_ge, drop_all by exact H.
    symmetry. apply app_nil_r.
Qed.

(** ** Reading a playlist of the reference service *)

Lemma present_ids_app (a b : list PlaylistItem) :
  present_ids (a ++ b) = present_ids a ++ present_ids b.
Proof. apply omap_app. Qed.

Lemma present_ids_item_of (ids : list string) :
  present_ids (map item_of ids) = ids.
Proof.
  induction ids as [|i ids IH]; [reflexivity|].
  cbn. f_equal. exact IH.
Qed.

Lemma present_ids_tracks (items : list PlaylistItem) :
  present_ids items = map track_id (omap it_track items).
Proof.
  induction items as [|[[t|]] items IH]; [reflexivity| |exact IH].
  cbn. f_equal. exact IH.
Qed.

Lemma track_ids_loop_spotify cap pid r :
  0 < cap -> forall fuel offset ids,
  length (drop offset (items_of r pid)) < fuel ->
  let x := track_ids_loop (spotify cap) pid fuel offset ids r in
  result x = Ok (ids ++ present_ids (drop offset (items_of r pid)))
  /\ final x = r.
Proof.
  intros Hcap. induction fuel as [|fuel IH]; intros offset ids Hf; [lia|].
  cbn [track_ids_loop].
  rewrite (bind_ok _ _ r _ _ _ eq_refl).
  cbn [ip_items get_items default from_option id result final trace fst snd].
  pose proof (page_split cap 100 offset (items_of r pid)) as Hs.
  destruct (page cap 100 offset (items_of r pid)) as [|i items] eqn:E.
  - apply page_nil in E; [|lia|lia]. rewrite E.
    cbn. rewrite app_nil_r. done.
  - rewrite Hs in Hf |- *. rewrite length_app in Hf.
    cbn [length] in Hf.
    destruct (IH (offset + length (i :: items))
                 (ids ++ present_ids (i :: items))) as [Hr Hfin].
    { cbn [length]. lia. }
    rewrite Hr, Hfin. rewrite present_ids_app, app_assoc. done.
Qed.

Lemma get_playlist_track_ids_spotify cap fuel pid r :
  0 < cap -> length (items_of r pid) < fuel ->
  exists t,
    get_playlist_track_ids (spotify cap) fuel pid r
    = (Ok (present_ids (items_of r pid)), r, t) /\ writes t = [].
Proof.
  intros Hcap Hf. unfold get_playlist_track_ids.
  destruct (track_ids_loop_spotify cap pid r Hcap fuel 0 []) as [Hr Hfin].
  { exact Hf. }
  exists (trace (track_ids_loop (spotify cap) pid fuel 0 [] r)). split.
  - apply run_ok; [exact Hr|exact Hfin].
  - apply track_ids_loop_no_write.
Qed.

(** ** Writing to a playlist of the reference service *)

Lemma items_of_set r c pid :
  items_of (set_contents r c) pid = default [] (c !! pid).
Proof. reflexivity. Qed.

Lemma add_all_spotify cap pid (chunks : list (list string)) : forall r,
  items_of (add_all (spotify cap) pid chunks r) pid
  = items_of r pid ++ map item_of (concat chunks).
Proof.
  induction chunks as [|c chunks IH]; intros r.
  - cbn. symmetry. apply app_nil_r.
  - rewrite add_all_cons, IH. cbn [spotify playlist_add_items concat].
    rewrite items_of_set, lookup_insert_eq. cbn [default from_option id].
    rewrite map_app, app_assoc. reflexivity.
Qed.

(** The update on the reference service, in both cases of the comparison. *)
Lemma update_spotify cap fuel pid (new : list string) r :
  0 < cap -> length (items_of r pid) < fuel ->
  let x := update_playlist_if_needed (spotify cap) fuel pid new r in
  result x = Ok tt
  /\ if same_set (present_ids (items_of r pid)) new
     then final x = r
          /\ writes (trace x) = []
          /\ last (trace x) = Some (Printed up_to_date)
     else items_of (final x) pid = map item_of new
          /\ writes (trace x)
             = Call_replace_items pid (take 100 new)
               :: map (Call_add_items pid) (appended new).
Proof.
  intros Hcap Hf x.
  destruct (get_playlist_track_ids_spotify cap fuel pid r Hcap Hf)
    as (t & Hread & Ht).
  assert (Hx : x = _)
    by exact (update_run (spotify cap) fuel pid new r _ _ _ Hread).
  rewrite Hx. destruct (same_set _ _); cbn [result final trace fst snd].
  - rewrite writes_reads_then by exact Ht. rewrite last_snoc. done.
  - split; [reflexivity|]. split.
    + rewrite add_all_spotify. cbn [spotify playlist_replace_items].
      rewrite items_of_set, lookup_insert_eq. cbn [default from_option id].
      rewrite slice_0, <- map_app, appended_concat. reflexivity.
    + rewrite writes_reads_then by exact Ht.
      rewrite slice_0. unfold writes at 1. cbn [filter list_filter is_write].
      rewrite decide_True by done. f_equal. apply writes_adds.
Qed.

(** ** The windowed reader on the reference service *)

Lemma older_not_in_window cutoff item :
  older cutoff item = true -> in_window cutoff item = false.
Proof.
  unfold in_window, older.
  destruct (Datetime.strptime _) as [t|]; [|done].
  intros H. apply Z.ltb_lt in H. apply Z.leb_gt. exact H.
Qed.

Lemma saved_ids_app a b : saved_ids (a ++ b) = saved_ids a ++ saved_ids b.
Proof. apply map_app. Qed.

Lemma scan_saved_app cutoff (a b : list SavedItem) : forall results,
  forallb (in_window cutoff) a = true ->
  scan_saved cutoff (a ++ b) results
  = scan_saved cutoff b (results ++ saved_ids a).
Proof.
  induction a as [|item a IH]; intros results H.
  - cbn. rewrite app_nil_r. reflexivity.
  - cbn [forallb] in H. apply andb_prop in H as [Hi Ha].
    cbn [app scan_saved]. unfold in_window in Hi.
    destruct (Datetime.strptime (si_added_at item)) as [t|]; [|discriminate].
    rewrite Hi, (IH _ Ha). cbn [saved_ids map].
    rewrite <- app_assoc. reflexivity.
Qed.

Lemma scan_saved_all cutoff (a : list SavedItem) results :
  forallb (in_window cutoff) a = true ->
  scan_saved cutoff a results = Ok (Continue (results ++ saved_ids a)).
Proof.
  intros H. rewrite <- (app_nil_r a) at 1.
  rewrite (scan_saved_app _ _ _ _ H). reflexivity.
Qed.

Lemma scan_saved_stop cutoff item rest results :
  in_window cutoff item = false ->
  scan_saved cutoff (item :: rest) results
  = if older cutoff item then Ok (Return results) else Raise ValueError.
Proof.
  unfold in_window, older. cbn [scan_saved].
  destruct (Datetime.strptime (si_added_at item)) as [t|]; [|reflexivity].
  intros H. rewrite H. apply Z.leb_gt in H.
  destruct (Z.ltb_spec t cutoff); [reflexivity|lia].
Qed.

Lemma forallb_take {A} (f : A -> bool) n (l : list A) :
  forallb f l = true -> forallb f (take n l) = true.
Proof.
  rewrite !forallb_forall. intros H x Hx. apply H.
  apply list_elem_of_In in Hx. apply list_elem_of_In.
  exact (subseteq_take n l x Hx).
Qed.

Lemma forallb_drop {A} (f : A -> bool) n (l : list A) :
  forallb f l = true -> forallb f (drop n l) = true.
Proof.
  rewrite !forallb_forall. intros H x Hx. apply H.
  apply list_elem_of_In in Hx. apply list_elem_of_In.
  exact (subseteq_drop n l x Hx).
Qed.

Lemma pages_step k ps :
  0 < ps -> 0 < k -> pages (k - ps `min` k) ps + 1 <= pages k ps.
Proof.
  intros Hps Hk. unfold pages.
  destruct (Nat.le_gt_cases ps k) as [H|H].
  - rewrite Nat.min_l by exact H.
    replace (k + ps - 1) with ((k - ps + ps - 1) + 1 * ps) by lia.
    rewrite Nat.div_add by lia. lia.
  - rewrite Nat.min_r by lia.
    replace (k - k + ps - 1) with (ps - 1) by lia.
    rewrite Nat.div_small by lia.
    apply (Nat.div_le_lower_bound (k + ps - 1) ps 1); lia.
Qed.

Lemma pages_le k ps : 0 < ps -> pages k ps <= k.
Proof.
  intros Hps. unfold pages.
  destruct k as [|k].
  - rewrite Nat.div_small by lia. lia.
  - apply Nat.Div0.div_le_upper_bound. nia.
Qed.

Lemma saved_call_upto_le b b' e :
  b <= b' -> saved_call_upto b e -> saved_call_upto b' e.
Proof. intros Hb (o & n & -> & Ho). exists o, n. split; [reflexivity|lia]. Qed.

(** The loop of [fetch_liked_tracks] on the reference service, from an
    offset after which the library reads [pre ++ post]: [pre] within the
    window, [post] empty or headed by an entry that is not. *)
Lemma fetch_liked_loop_spotify cap cutoff r :
  0 < cap -> forall fuel offset results pre post,
  drop offset (saved r) = pre ++ post ->
  forallb (in_window cutoff) pre = true ->
  stops cutoff post = true ->
  pages (length pre) (50 `min` cap) < fuel ->
  let x := fetch_liked_loop (spotify cap) cutoff fuel offset results r in
  result x = stop_result cutoff (results ++ saved_ids pre) post
  /\ final x = r
  /\ length (trace x) <= pages (length pre) (50 `min` cap) + 1
  /\ Forall (saved_call_upto (offset + length pre)) (trace x).
Proof.
  intros Hcap. set (ps := 50 `min` cap).
  assert (Hps : 0 < ps) by (unfold ps; lia).
  induction fuel as [|fuel IH]; intros offset results pre post Hd Hpre Hpost Hf;
    [lia|].
  cbn [fetch_liked_loop].
  rewrite (bind_ok _ _ r _ _ _ eq_refl).
  cbn [result final trace fst snd].
  assert (Hpage : page cap 50 offset (saved r) = take ps (pre ++ post)).
  { unfold page. rewrite Hd. reflexivity. }
  pose proof (page_split cap 50 offset (saved r)) as Hsplit.
  assert (Hev : saved_call_upto (offset + length pre)
            (Call_saved_tracks 50 offset
               (length (page cap 50 offset (saved r))))).
  { exists offset, (length (page cap 50 offset (saved r))).
    split; [reflexivity|lia]. }
  destruct (page cap 50 offset (saved r)) as [|i items] eqn:E.
  { (* an empty page: the library is exhausted *)
    apply page_nil in E; [|lia|lia]. rewrite E in Hd.
    symmetry in Hd. apply app_eq_nil in Hd as [-> ->].
    cbn. rewrite app_nil_r. repeat split; [lia|].
    constructor; [exact Hev|constructor]. }
  rewrite <- E in *.
  assert (Hne : 0 < length (page cap 50 offset (saved r)))
    by (rewrite E; cbn; lia).
  clear i items E.
  destruct (decide (ps <= length pre \/ post = [])) as [Hcont|Hstop].
  - (* the whole page is within the window: the loop goes on *)
    assert (Hp : page cap 50 offset (saved r) = take ps pre).
    { rewrite Hpage. destruct Hcont as [H| ->].
      - apply take_app_le. exact H.
      - rewrite app_nil_r. reflexivity. }
    rewrite Hp in *. clear Hpage.
    assert (Hk : 0 < length pre).
    { rewrite length_take in Hne. lia. }
    rewrite (bind_ok _ _ r (Continue (results ++ saved_ids (take ps pre))) r []).
    2:{ unfold lift. rewrite scan_saved_all by (apply forallb_take; exact Hpre).
        reflexivity. }
    cbn [result final trace fst snd app].
    destruct (IH (offset + length (take ps pre))
                 (results ++ saved_ids (take ps pre)) (drop ps pre) post)
      as (Hr & Hfin & Hlen & Hall).
    + rewrite <- (take_drop ps pre) in Hd at 1. rewrite <- app_assoc in Hd.
      rewrite Hsplit in Hd. apply app_inv_head in Hd. exact Hd.
    + apply forallb_drop. exact Hpre.
    + exact Hpost.
    + pose proof (pages_step (length pre) ps Hps Hk) as Hstep.
      rewrite length_drop.
      replace (length pre - ps) with (length pre - ps `min` length pre) by lia.
      lia.
    + rewrite Hr, Hfin. rewrite <- app_assoc, <- saved_ids_app, take_drop.
      split; [reflexivity|]. split; [reflexivity|]. split.
      * pose proof (pages_step (length pre) ps Hps Hk) as Hstep.
        rewrite length_drop in Hlen.
        replace (length pre - ps) with (length pre - ps `min` length pre)
          in Hlen by lia.
        cbn [length]. lia.
      * constructor; [exact Hev|].
        eapply Forall_impl; [exact Hall|]. intros e.
        apply saved_call_upto_le. rewrite length_take, length_drop. lia.
  - (* the page holds the entry that ends the window *)
    assert (Hlt : length pre < ps)
      by (apply Nat.nlt_ge; intros H; apply Hstop; left; lia).
    destruct post as [|item post];
      [exfalso; apply Hstop; right; reflexivity|].
    clear Hstop.
    cbn [stops] in Hpost. apply negb_true_iff in Hpost.
    rewrite take_app in Hpage. rewrite take_ge in Hpage by lia.
    destruct (ps - length pre) as [|m] eqn:Em; [lia|]. cbn [take] in Hpage.
    rewrite Hpage. cbn [stop_result].
    unfold lift. rewrite (scan_saved_app _ _ _ _ Hpre).
    rewrite (scan_saved_stop _ _ _ _ Hpost).
    rewrite Hpage in Hev.
    destruct (older cutoff item).
    + rewrite (bind_ok _ _ r (Return (results ++ saved_ids pre)) r [] eq_refl).
      cbn. repeat split; [lia|]. constructor; [exact Hev|constructor].
    + rewrite (bind_raise _ _ r ValueError r [] eq_refl).
      cbn. repeat split; [lia|]. constructor; [exact Hev|constructor].
Qed.

Lemma newest_first_old cutoff (l : list SavedItem) : forall p,
  newest_first_from (Some p) l = true -> (p < cutoff)%Z ->
  List.filter (in_window cutoff) l = [].
Proof.
  induction l as [|item l IH]; intros p H Hp; [reflexivity|].
  cbn [newest_first_from] in H. cbn [List.filter]. unfold in_window.
  destruct (Datetime.strptime (si_added_at item)) as [t|]; [|discriminate].
  apply andb_prop in H as [Ht Hl]. apply Z.leb_le in Ht.
  destruct (Z.leb_spec cutoff t); [lia|]. apply (IH t Hl). lia.
Qed.

(** In a library sorted newest first the entries within the window are a
    prefix, ended by the end of the library or by an older entry. *)
Lemma newest_first_split cutoff (l : list SavedItem) : forall prev,
  newest_first_from prev l = true ->
  exists pre post,
    l = pre ++ post
    /\ forallb (in_window cutoff) pre = true
    /\ match post with [] => True | item :: _ => older cutoff item = true end
    /\ List.filter (in_window cutoff) l = pre.
Proof.
  induction l as [|item l IH]; intros prev H.
  - exists [], []. done.
  - cbn [newest_first_from] in H.
    destruct (Datetime.strptime (si_added_at item)) as [t|] eqn:Et;
      [|discriminate].
    apply andb_prop in H as [_ Hl].
    destruct (Z.leb_spec cutoff t) as [Hin|Hout].
    + destruct (IH _ Hl) as (pre & post & -> & Hpre & Hpost & Hfil).
      assert (Hi : in_window cutoff item = true).
      { unfold in_window. rewrite Et. apply Z.leb_le. exact Hin. }
      exists (item :: pre), post. split; [reflexivity|]. split.
      { cbn [forallb]. rewrite Hi, Hpre. reflexivity. }
      split; [exact Hpost|]. cbn [List.filter]. rewrite Hi, Hfil. reflexivity.
    + assert (Ho : older cutoff item = true).
      { unfold older. rewrite Et. apply Z.ltb_lt. exact Hout. }
      exists [], (item :: l). split; [reflexivity|]. split; [reflexivity|].
      split; [exact Ho|]. cbn [List.filter].
      rewrite (older_not_in_window _ _ Ho).
      exact (newest_first_old _ _ _ Hl Hout).
Qed.

Lemma stops_of_older cutoff post :
  match post with [] => True | item :: _ => older cutoff item = true end ->
  stops cutoff post = true
  /\ forall results, stop_result cutoff results post = Ok results.
Proof.
  destruct post as [|item post]; [done|]. intros H. cbn.
  rewrite H, (older_not_in_window _ _ H). done.
Qed.

(** ** The locator on the reference service *)

Lemma find_app_first {A} (f : A -> bool) (a b : list A) :
  find f (a ++ b)
  = match find f a with Some x => Some x | None => find f b end.
Proof.
  induction a as [|x a IH]; [reflexivity|].
  cbn [app find]. destruct (f x); [reflexivity|exact IH].
Qed.

Lemma find_none_count {A} (f : A -> bool) (l : list A) :
  find f l = None -> List.filter f l = [].
Proof.
  induction l as [|x l IH]; [reflexivity|].
  cbn [find List.filter]. destruct (f x); [discriminate|exact IH].
Qed.

Lemma find_some_count {A} (f : A -> bool) (l : list A) x :
  find f l = Some x -> 1 <= length (List.filter f l).
Proof.
  induction l as [|y l IH]; [discriminate|].
  cbn [find List.filter]. destruct (f y); [cbn; lia|exact IH].
Qed.

Lemma matches_refl user name i :
  matches user name {| pl_id := i; pl_name := name; pl_owner := user |} = true.
Proof. unfold matches. cbn. rewrite !String.eqb_refl. reflexivity. Qed.

(** With full pages the walk of the locator sees the whole listing. *)
Lemma find_loop_spotify cap user name r :
  50 <= cap -> forall fuel offset,
  length (drop offset (listing r)) / 50 < fuel ->
  let x := find_loop (spotify cap) user name fuel offset r in
  result x = Ok (pl_id <$> find (matches user name) (drop offset (listing r)))
  /\ final x = r.
Proof.
  intros Hcap. induction fuel as [|fuel IH]; intros offset Hf; [lia|].
  cbn [find_loop].
  rewrite (bind_ok _ _ r _ _ _ eq_refl).
  cbn [pp_items pp_next get_items default from_option id
       result final trace fst snd].
  unfold page, next_link. replace (50 `min` cap) with 50 by lia.
  set (d := drop offset (listing r)) in *.
  assert (Hfind : find (matches user name) d
                  = match find (matches user name) (take 50 d) with
                    | Some x => Some x
                    | None => find (matches user name) (drop 50 d)
                    end).
  { rewrite <- find_app_first, take_drop. reflexivity. }
  rewrite Hfind.
  destruct (find (matches user name) (take 50 d)) as [pl|] eqn:E; [done|].
  destruct (Nat.ltb_spec (offset + 50) (length (listing r))) as [Hlt|Hge].
  - assert (Hd : 50 < length d) by (unfold d; rewrite length_drop; lia).
    destruct (IH (offset + 50)) as [Hr Hfin].
    { rewrite <- drop_drop. fold d. rewrite length_drop.
      pose proof (Nat.div_mod_eq (length d) 50).
      pose proof (Nat.mod_upper_bound (length d) 50).
      pose proof (Nat.div_mod_eq (length d - 50) 50).
      pose proof (Nat.mod_upper_bound (length d - 50) 50).
      lia. }
    rewrite Hr, Hfin. rewrite <- drop_drop. done.
  - rewrite (drop_ge d) by (unfold d; rewrite length_drop; lia). done.
Qed.

Lemma find_or_create_spotify cap fuel user name r :
  50 <= cap -> length (listing r) / 50 < fuel ->
  let x := find_or_create_playlist (spotify cap) fuel user name r in
  match find (matches user name) (listing r) with
  | Some pl => result x = Ok (pl_id pl) /\ final x = r /\ writes (trace x) = []
  | None =>
      result x = Ok (create user name r).1
      /\ final x = (create user name r).2
      /\ writes (trace x) = [Call_playlist_create user name false]
  end.
Proof.
  intros Hcap Hf x.
  destruct (find_loop_spotify cap user name r Hcap fuel 0 Hf) as [Hr Hfin].
  pose proof (find_loop_no_write (spotify cap) user name fuel 0 r) as Hw.
  unfold x, find_or_create_playlist.
  change (drop 0 (listing r)) with (listing r) in Hr.
  rewrite (bind_ok _ _ _ _ _ _ (run_ok _ _ _ Hr Hfin)).
  destruct (find (matches user name) (listing r)) as [pl|].
  - cbn [fmap option_fmap option_map result final trace fst snd ret].
    rewrite app_nil_r. done.
  - cbn [fmap option_fmap option_map result final trace fst snd].
    unfold sp_playlist_create. cbn [spotify user_playlist_create].
    destruct (create user name r) as [i r'].
    cbn [result final trace fst snd].
    rewrite writes_reads_then by exact Hw. done.
Qed.

(* ===================================================================== *)
(** * The claims                                                          *)
(* ===================================================================== *)

(** C1.  For every client, playlist and desired sequence: if the set of
    desired track identifiers equals the set of identifiers read from the
    playlist (order and duplicates ignored), [update_playlist_if_needed]
    returns having issued no write and having printed that the playlist is
    up to date, its trace being the reads followed by that line.  On the
    reference service, running the update twice in a row with the same
    desired sequence, the second run issues no write, prints the same line
    and leaves the service as the first run left it. *)
Theorem reconcile_idempotent :
  (forall St (sp : Spotify St) fuel pid (new existing : list string) s s1 t1,
      get_playlist_track_ids sp fuel pid s = (Ok existing, s1, t1) ->
      list_to_set new =@{gset string} list_to_set existing ->
      let x := update_playlist_if_needed sp fuel pid new s in
      result x = Ok tt
      /\ writes (trace x) = []
      /\ trace x = t1 ++ [Printed up_to_date])
  /\
  (forall cap fuel pid (new : list string) r,
      0 < cap -> length (items_of r pid) < fuel -> length new < fuel ->
      let first := update_playlist_if_needed (spotify cap) fuel pid new r in
      let second :=
        update_playlist_if_needed (spotify cap) fuel pid new (final first) in
      result first = Ok tt
      /\ result second = Ok tt
      /\ writes (trace second) = []
      /\ last (trace second) = Some (Printed up_to_date)
      /\ final second = final first).
Proof.
  split.
  - intros St sp fuel pid new existing s s1 t1 Hread Heq x.
    pose proof (track_ids_loop_no_write sp pid fuel 0 [] s) as Hw.
    unfold get_playlist_track_ids in Hread. rewrite Hread in Hw.
    cbn [trace snd] in Hw.
    subst x. rewrite (update_run sp fuel pid new s _ _ _ Hread).
    symmetry in Heq. apply same_set_true in Heq. rewrite Heq.
    cbn [result trace final fst snd].
    rewrite writes_reads_then by exact Hw. done.
  - intros cap fuel pid new r Hcap Hf Hn first second.
    destruct (update_spotify cap fuel pid new r Hcap Hf) as [Hr1 H1].
    fold first in Hr1, H1.
    assert (Hsame : same_set (present_ids (items_of (final first) pid)) new
                    = true
                    /\ length (items_of (final first) pid) < fuel).
    { destruct (same_set (present_ids (items_of r pid)) new) eqn:E.
      - destruct H1 as (-> & _). done.
      - destruct H1 as (-> & _). rewrite present_ids_item_of, length_map.
        split; [|exact Hn]. apply same_set_true. reflexivity. }
    destruct Hsame as [Hsame Hf1].
    destruct (update_spotify cap fuel pid new (final first) Hcap Hf1)
      as [Hr2 H2].
    fold second in Hr2, H2. rewrite Hsame in H2.
    destruct H2 as (Hfin & Hw & Hlast). done.
Qed.

Lemma reconcile_idempotent_witness :
  (let x := update_playlist_if_needed (spotify 50) 5 "p" ["A"; "B"; "C"]
              Examples.shuffled in
   result x = Ok tt
   /\ writes (trace x) = []
   /\ trace x = [Call_playlist_items "p" 100 0 3;
                 Call_playlist_items "p" 100 3 0]
                ++ [Printed up_to_date])
  /\
  (let first := update_playlist_if_needed (spotify 50) 5 "p" ["A"; "B"]
                  Examples.shuffled in
   let second := update_playlist_if_needed (spotify 50) 5 "p" ["A"; "B"]
                   (final first) in
   result first = Ok tt
   /\ result second = Ok tt
   /\ writes (trace second) = []
   /\ last (trace second) = Some (Printed up_to_date)
   /\ final second = final first).
Proof.
  split.
  - apply (proj1 reconcile_idempotent Remote (spotify 50) 5 "p"
             ["A"; "B"; "C"] ["C"; "B"; "A"] Examples.shuffled
             Examples.shuffled).
    + reflexivity.
    + vm_compute. reflexivity.
  - apply (proj2 reconcile_idempotent 50 5 "p" ["A"; "B"] Examples.shuffled).
    + lia.
    + vm_compute. lia.
    + simpl. lia.
Defined.

(** C2.  On the reference service, whenever the set of desired identifiers
    differs from the set read from the playlist, the update returns having
    issued as its writes exactly one replace call with the first 100 desired
    identifiers followed by append calls whose chunks, in order, make up the
    rest of the desired sequence, each of 1 to 100 identifiers and all but
    the last of exactly 100; for 250 desired identifiers these are the
    replace of the first 100, the append of the next 100 and the append of
    the last 50; and the playlist then holds the desired sequence. *)
Theorem update_replaces_in_chunks cap fuel pid (new : list string) r :
  0 < cap -> length (items_of r pid) < fuel ->
  list_to_set (present_ids (items_of r pid)) ≠@{gset string} list_to_set new ->
  let x := update_playlist_if_needed (spotify cap) fuel pid new r in
  result x = Ok tt
  /\ (exists chunks,
        writes (trace x)
        = Call_replace_items pid (take 100 new)
          :: map (Call_add_items pid) chunks
        /\ take 100 new ++ concat chunks = new
        /\ Forall (fun c => 1 <= length c <= 100) chunks
        /\ (forall k c, chunks !! k = Some c -> S k < length chunks ->
                        length c = 100))
  /\ (length new = 250 ->
      writes (trace x)
      = [Call_replace_items pid (take 100 new);
         Call_add_items pid (take 100 (drop 100 new));
         Call_add_items pid (drop 200 new)])
  /\ items_of (final x) pid = map item_of new.
Proof.
  intros Hcap Hfuel Hne x.
  destruct (update_spotify cap fuel pid new r Hcap Hfuel) as [Hr H].
  fold x in Hr, H. apply same_set_false in Hne. rewrite Hne in H.
  destruct H as [Hitems Hw].
  split; [exact Hr|]. split; [|split].
  - exists (appended new). split; [exact Hw|].
    split; [apply appended_concat|].
    split; [apply appended_sizes|apply appended_full].
  - intros H250. rewrite Hw, (appended_250 new H250). reflexivity.
  - exact Hitems.
Qed.

Lemma update_replaces_in_chunks_witness :
  let new := Examples.numbered 250 in
  let x := update_playlist_if_needed (spotify 100) 1 "p" new
             (Examples.account [] [] ∅) in
  result x = Ok tt
  /\ writes (trace x)
     = [Call_replace_items "p" (take 100 new);
        Call_add_items "p" (take 100 (drop 100 new));
        Call_add_items "p" (drop 200 new)]
  /\ items_of (final x) "p" = map item_of new.
Proof.
  intros new x.
  destruct (update_replaces_in_chunks 100 1 "p" new
              (Examples.account [] [] ∅)) as (Hr & _ & H250 & Hitems).
  - lia.
  - vm_compute. lia.
  - apply same_set_false. vm_compute. reflexivity.
  - split; [exact Hr|]. split; [|exact Hitems].
    apply H250. reflexivity.
Defined.

(** C3.  The loops of [fetch_liked_tracks], [get_all_user_playlists] and
    [get_playlist_track_ids] advance, with every client, by the number of
    items the page just read returned and read nothing after an empty page.
    The loop of [find_or_create_playlist] does not: it advances by 50.  With
    a service that puts at most 30 items on a page and an account of 35
    playlists whose last one is the target, [get_all_user_playlists] reads
    at offsets 0, 30 and 35 and returns the 35 playlists, while
    [find_or_create_playlist] reads at offsets 0 and 50, never sees the
    playlists 30 to 34, and creates a second playlist of the target's name
    for the same owner. *)
Theorem locator_advances_by_page_size :
  (forall St (sp : Spotify St) fuel s,
      (forall now months,
          walks_by_returned 0 (trace (fetch_liked_tracks sp fuel now months s)))
      /\ walks_by_returned 0 (trace (get_all_user_playlists sp fuel s))
      /\ (forall pid,
          walks_by_returned 0 (trace (get_playlist_track_ids sp fuel pid s))))
  /\
  (let r := Examples.crowded in
   let walk := get_all_user_playlists (spotify 30) 10 r in
   let located :=
     find_or_create_playlist (spotify 30) 10 "me" ROTATION_NAME r in
   result walk = Ok (listing r)
   /\ page_reads (trace walk) = [(0, 30); (30, 5); (35, 0)]
   /\ page_reads (trace located) = [(0, 30); (50, 0)]
   /\ advances_by_returned 0 (page_reads (trace located)) = false
   /\ (pl_id <$> find (matches "me" ROTATION_NAME) (listing r)) = Some "target"
   /\ result located = Ok "playlist-0"
   /\ writes (trace located) = [Call_playlist_create "me" ROTATION_NAME false]
   /\ count_matching "me" ROTATION_NAME (final located) = 2).
Proof.
  split.
  - intros St sp fuel s. split; [|split].
    + intros now months. unfold fetch_liked_tracks.
      destruct (Datetime.minus_days now (months * 30)) as [cutoff|];
        [apply fetch_liked_loop_walk|done].
    + apply get_all_loop_walk.
    + intros pid. apply track_ids_loop_walk.
  - vm_compute. done.
Qed.

(** C4.  The [for] loop of [main] selects the target by name alone: with
    every list of playlists it yields the identifier of the first playlist
    named [ROTATION_NAME], whoever owns it, whereas [matches], the
    comparison of [find_or_create_playlist], also requires the owner.  With
    an account that follows a playlist of someone else bearing that name,
    [main] takes that playlist for the target and issues its replace call
    on it, while [find_or_create_playlist] for the caller does not return
    it and creates the caller's own. *)
Theorem main_selects_by_name_only :
  (forall St (playlists : list Playlist) (s : St),
      result (select_target playlists s)
      = Ok (pl_id <$> find named_target playlists))
  /\
  (let r := Examples.followed in
   let theirs :=
     {| pl_id := "theirs"; pl_name := ROTATION_NAME; pl_owner := "someone" |} in
   listing r = [theirs]
   /\ me r = "me"
   /\ named_target theirs = true
   /\ matches "me" ROTATION_NAME theirs = false
   /\ result (main (spotify 50) 5 Examples.now r) = Ok tt
   /\ writes (trace (main (spotify 50) 5 Examples.now r))
      = [Call_replace_items "theirs" ["A"]]
   /\ result (find_or_create_playlist (spotify 50) 5 "me" ROTATION_NAME r)
      = Ok "playlist-0"
   /\ writes (trace (find_or_create_playlist (spotify 50) 5 "me"
                       ROTATION_NAME r))
      = [Call_playlist_create "me" ROTATION_NAME false]).
Proof.
  split.
  - intros St playlists s. apply select_target_by_name.
  - vm_compute. done.
Qed.

(** C5, as the code has it.  On the reference service, with a library
    sorted newest first (every timestamp parsing): when
    [now - months * 30 days] is a date, [fetch_liked_tracks] takes it for
    cutoff and returns the identifiers of exactly the entries with
    [added_at >= cutoff], in the order of the library (an entry of the
    library is in the window if and only if its timestamp is not before the
    cutoff, so an entry a day after the cutoff is in and an entry a day
    before it is out), and an empty library gives the empty window, not an
    error; when it is no date, [fetch_liked_tracks] raises [OverflowError]
    before any request. *)
Theorem fetch_liked_tracks_window cap fuel now months r :
  0 < cap -> length (saved r) < fuel -> newest_first (saved r) = true ->
  let x := fetch_liked_tracks (spotify cap) fuel now months r in
  match Datetime.minus_days now (months * 30) with
  | None => x = (Raise OverflowError, r, [])
  | Some cutoff =>
      let window := List.filter (in_window cutoff) (saved r) in
      cutoff = (now - Datetime.timedelta_days (months * 30))%Z
      /\ result x = Ok (saved_ids window)
      /\ (forall item t, In item (saved r) ->
            Datetime.strptime (si_added_at item) = Some t ->
            (In item window <-> (cutoff <= t)%Z))
      /\ (forall item, In item (saved r) ->
            Datetime.strptime (si_added_at item)
            = Some (cutoff + Datetime.day_us)%Z ->
            In item window)
      /\ (forall item,
            Datetime.strptime (si_added_at item)
            = Some (cutoff - Datetime.day_us)%Z ->
            ~ In item window)
      /\ (saved r = [] -> result x = Ok [])
  end.
Proof.
  intros Hcap Hf Hs x.
  destruct (Datetime.minus_days now (months * 30)) as [cutoff|] eqn:Ec;
    [|subst x; unfold fetch_liked_tracks; rewrite Ec; reflexivity].
  intros window.
  assert (Hx : result x = Ok (saved_ids window)).
  { destruct (newest_first_split cutoff (saved r) None Hs)
      as (pre & post & Hl & Hpre & Hpost & Hfil).
    apply stops_of_older in Hpost as [Hstop Hres].
    destruct (fetch_liked_loop_spotify cap cutoff r Hcap fuel 0 [] pre post)
      as (Hr & _); [exact Hl|exact Hpre|exact Hstop| |].
    - pose proof (pages_le (length pre) (50 `min` cap)).
      rewrite Hl, length_app in Hf. lia.
    - subst x window. unfold fetch_liked_tracks. rewrite Ec.
      rewrite Hr, Hres, Hfil. reflexivity. }
  assert (Hin : forall item t, In item (saved r) ->
        Datetime.strptime (si_added_at item) = Some t ->
        (In item window <-> (cutoff <= t)%Z)).
  { intros item t Hi Ht. subst window. rewrite filter_In. unfold in_window.
    rewrite Ht, Z.leb_le. tauto. }
  split; [exact (minus_days_some _ _ _ Ec)|].
  split; [exact Hx|]. split; [exact Hin|]. split; [|split].
  - intros item Hi Ht. apply (Hin item _ Hi Ht). unfold Datetime.day_us. lia.
  - intros item Ht Hi. subst window. apply filter_In in Hi as [Hi Hw].
    unfold in_window in Hw. rewrite Ht in Hw. apply Z.leb_le in Hw.
    unfold Datetime.day_us in Hw. lia.
  - intros He. rewrite Hx. subst window. rewrite He. reflexivity.
Qed.

Lemma fetch_liked_tracks_window_witness :
  let r := Examples.around_cutoff in
  let cutoff := Datetime.datetime 2023 6 21 12 0 0 0 in
  Datetime.minus_days Examples.now (12 * 30) = Some cutoff
  /\ map (fun item => Datetime.strptime (si_added_at item)) (saved r)
     = [Some (cutoff + Datetime.day_us)%Z; Some (cutoff - Datetime.day_us)%Z]
  /\ result (fetch_liked_tracks (spotify 50) 3 Examples.now 12 r) = Ok ["in"]
  /\ Datetime.minus_days Examples.now (30000 * 30) = None
  /\ fetch_liked_tracks (spotify 50) 3 Examples.now 30000 r
     = (Raise OverflowError, r, []).
Proof.
  intros r cutoff.
  assert (Hc : Datetime.minus_days Examples.now (12 * 30) = Some cutoff)
    by (vm_compute; reflexivity).
  assert (Hn : Datetime.minus_days Examples.now (30000 * 30) = None)
    by (vm_compute; reflexivity).
  split; [exact Hc|]. split; [vm_compute; reflexivity|]. split.
  - pose proof (fetch_liked_tracks_window 50 3 Examples.now 12 r) as H.
    rewrite Hc in H. destruct H as (_ & Hr & _).
    + lia.
    + simpl. lia.
    + vm_compute. reflexivity.
    + rewrite Hr. vm_compute. reflexivity.
  - split; [exact Hn|].
    pose proof (fetch_liked_tracks_window 50 3 Examples.now 30000 r) as H.
    rewrite Hn in H. apply H.
    + lia.
    + simpl. lia.
    + vm_compute. reflexivity.
Defined.

(** C5, as stated, fails: with a window of 30000 months the cutoff would
    lie before the year 1, and [fetch_liked_tracks] raises [OverflowError]
    on the empty library, where the claim has an empty window and no
    error. *)
Lemma empty_library_with_cutoff_out_of_range :
  let r := Examples.account [] [] ∅ in
  let x := fetch_liked_tracks (spotify 50) 1 Examples.now 30000 r in
  saved r = []
  /\ newest_first (saved r) = true
  /\ (Examples.now - Datetime.timedelta_days (30000 * 30) <? Datetime.min_us)%Z
     = true
  /\ result x = Raise OverflowError
  /\ trace x = [].
Proof. vm_compute. done. Qed.

(** C6.  On the reference service, with a library whose first [k] entries
    are within the window and whose next entry, if there is one, is older
    than the cutoff (whatever follows it), [fetch_liked_tracks] returns the
    identifiers of those [k] entries (unless the cutoff is no date, when it
    raises [OverflowError] without a request); every call it issues is a
    request for a page of saved tracks at an offset of at most [k], so none
    is issued past the page that holds the older entry; and it issues at
    most [k / page_size] rounded up, plus one, of them, however long the
    library is: at most 2 at 50 entries a page when 30 entries qualify. *)
Theorem fetch_liked_tracks_early_stop cap fuel now months r pre post :
  let cutoff := (now - Datetime.timedelta_days (months * 30))%Z in
  let page_size := 50 `min` cap in
  let x := fetch_liked_tracks (spotify cap) fuel now months r in
  0 < cap -> saved r = pre ++ post ->
  forallb (in_window cutoff) pre = true ->
  match post with [] => True | item :: _ => older cutoff item = true end ->
  pages (length pre) page_size < fuel ->
  result x = match Datetime.minus_days now (months * 30) with
             | Some _ => Ok (saved_ids pre)
             | None => Raise OverflowError
             end
  /\ Forall (saved_call_upto (length pre)) (trace x)
  /\ length (trace x) <= pages (length pre) page_size + 1
  /\ (50 <= cap -> length pre = 30 -> length (trace x) <= 2).
Proof.
  intros cutoff page_size x Hcap Hl Hpre Hpost Hf.
  subst x. rewrite fetch_liked_tracks_run. fold cutoff.
  destruct (Datetime.minus_days now (months * 30)) as [c|].
  2:{ cbn [result trace fst snd length]. repeat split; [constructor|lia|lia]. }
  apply stops_of_older in Hpost as [Hstop Hres].
  destruct (fetch_liked_loop_spotify cap cutoff r Hcap fuel 0 [] pre post)
    as (Hr & _ & Hlen & Hall); [exact Hl|exact Hpre|exact Hstop|exact Hf|].
  fold page_size in Hlen.
  rewrite Hres in Hr. repeat split; [exact Hr|exact Hall|exact Hlen|].
  intros H50 H30. rewrite H30 in Hlen.
  replace page_size with 50 in Hlen by (unfold page_size; lia).
  exact Hlen.
Qed.

Lemma fetch_liked_tracks_early_stop_witness :
  let r := Examples.long_library in
  let x := fetch_liked_tracks (spotify 50) 2 Examples.now 12 r in
  length (saved r) = 500
  /\ result x = Ok (replicate 30 "new")
  /\ length (trace x) <= 2.
Proof.
  intros r x. split; [reflexivity|].
  destruct (fetch_liked_tracks_early_stop 50 2 Examples.now 12 r
              (replicate 30 (Examples.entry "2024-06-01T00:00:00Z" "new"))
              (replicate 470 (Examples.entry "2020-01-01T00:00:00Z" "old")))
    as (Hr & _ & _ & H2).
  - lia.
  - reflexivity.
  - vm_compute. reflexivity.
  - vm_compute. reflexivity.
  - vm_compute. lia.
  - split; [exact Hr|]. apply H2; [lia|reflexivity].
Defined.

(** C7.  For every client and every run of [main] in which the first page
    of the playlist listing that [get_all_user_playlists] reads holds no
    item (the identity and the window having been read), [main] returns
    having issued no create call and no other write, its last act being to
    print the warning that playlist generation is skipped: after the
    listing call its trace holds nothing but that line, so neither the
    locator nor the update runs. *)
Theorem main_skips_on_empty_listing {St} (sp : Spotify St)
    fuel now s user s1 ids s2 t2 resp s3 :
  current_user sp s = (user, s1) ->
  fetch_liked_tracks sp fuel now MONTHS_BACK s1 = (Ok ids, s2, t2) ->
  current_user_playlists sp 50 0 s2 = (resp, s3) ->
  get_items (pp_items resp) = [] ->
  let x := main sp fuel now s in
  result x = Ok tt
  /\ final x = s3
  /\ trace x
     = [Call_current_user] ++ t2
       ++ [Printed ("Found " +:+ pretty (length ids)
                    +:+ " liked tracks from last "
                    +:+ pretty MONTHS_BACK +:+ " months.");
           Printed ("Target Playlist: " +:+ ROTATION_NAME);
           Call_user_playlists 50 0 0 (bool_decide (pp_next resp ≠ None));
           Printed warning]
  /\ writes (trace x) = []
  /\ filter is_create (trace x) = []
  /\ last (trace x) = Some (Printed warning).
Proof.
  intros Hu Hfetch Hlist Hempty x.
  assert (Hw2 : writes t2 = []).
  { pose proof (fetch_liked_tracks_no_write sp fuel now MONTHS_BACK s1) as H.
    rewrite Hfetch in H. exact H. }
  set (tail := [Printed ("Found " +:+ pretty (length ids)
                         +:+ " liked tracks from last "
                         +:+ pretty MONTHS_BACK +:+ " months.");
                Printed ("Target Playlist: " +:+ ROTATION_NAME);
                Call_user_playlists 50 0 0 (bool_decide (pp_next resp ≠ None))]).
  assert (Hx : x = (Ok tt, s3,
                    ([Call_current_user] ++ t2 ++ tail) ++ [Printed warning])).
  { subst x. unfold main.
    rewrite (bind_ok _ _ _ _ _ _ (sp_current_user_run _ _ _ _ Hu)).
    rewrite (bind_ok _ _ _ _ _ _ Hfetch).
    rewrite (bind_ok _ _ s2 tt s2 _ eq_refl).
    rewrite (bind_ok _ _ s2 tt s2 _ eq_refl).
    destruct fuel as [|fuel].
    { rewrite fetch_liked_tracks_run in Hfetch.
      destruct (Datetime.minus_days _ _); discriminate Hfetch. }
    unfold get_all_user_playlists. cbn [get_all_loop].
    rewrite (bind_ok _ _ s2 [] s3
      [Call_user_playlists 50 0 0 (bool_decide (pp_next resp ≠ None))]).
    2:{ rewrite (bind_ok _ _ _ _ _ _ (sp_user_playlists_run _ _ _ _ _ _ Hlist)).
        rewrite Hempty. reflexivity. }
    cbn [result final trace fst snd length Nat.ltb Nat.leb negb].
    rewrite (bind_ok _ _ s3 tt s3 _ eq_refl).
    cbn [result final trace fst snd ret].
    unfold tail. rewrite <- !app_assoc. reflexivity. }
  assert (Hw : writes (trace x) = []).
  { rewrite Hx. cbn [trace snd]. rewrite !writes_app, Hw2. reflexivity. }
  split; [rewrite Hx; reflexivity|]. split; [rewrite Hx; reflexivity|].
  split.
  { rewrite Hx. cbn [trace snd]. unfold tail.
    rewrite <- !app_assoc. reflexivity. }
  split; [exact Hw|]. split; [exact (no_write_no_create _ Hw)|].
  rewrite Hx. cbn [trace snd]. apply last_snoc.
Qed.

Lemma main_skips_on_empty_listing_witness :
  let r := Examples.no_playlists in
  let x := main (spotify 50) 3 Examples.now r in
  listing r = []
  /\ result x = Ok tt
  /\ writes (trace x) = []
  /\ last (trace x) = Some (Printed warning).
Proof.
  intros r x. split; [reflexivity|].
  destruct (main_skips_on_empty_listing (spotify 50) 3 Examples.now r
              "me" r ["A"] r [Call_saved_tracks 50 0 1; Call_saved_tracks 50 1 0]
              {| pp_items := Some []; pp_next := None |} r)
    as (Hr & _ & _ & Hw & _ & Hl).
  - reflexivity.
  - vm_compute. reflexivity.
  - reflexivity.
  - reflexivity.
  - split; [exact Hr|]. split; [exact Hw|exact Hl].
Defined.

(** C8, as the code has it.  On the reference service, take the first
    entry of the library that is not within the window, the entries before
    it being within it.  When the timestamp of that entry does not parse,
    [fetch_liked_tracks] raises: the entry is neither skipped nor is a
    partial window returned.  When that entry is older than the cutoff,
    [fetch_liked_tracks] returns the window, whatever follows the entry,
    also entries whose timestamps do not parse: it issues no request past
    the page of that entry.  (When the cutoff itself is no date, it raises
    [OverflowError] in both cases.) *)
Theorem fetch_liked_tracks_malformed cap fuel now months r pre stop post :
  let cutoff := (now - Datetime.timedelta_days (months * 30))%Z in
  let x := fetch_liked_tracks (spotify cap) fuel now months r in
  0 < cap -> saved r = pre ++ stop :: post ->
  forallb (in_window cutoff) pre = true ->
  length pre < fuel ->
  (Datetime.strptime (si_added_at stop) = None ->
     result x = Raise match Datetime.minus_days now (months * 30) with
                      | Some _ => ValueError
                      | None => OverflowError
                      end)
  /\ (older cutoff stop = true ->
        result x = match Datetime.minus_days now (months * 30) with
                   | Some _ => Ok (saved_ids pre)
                   | None => Raise OverflowError
                   end
        /\ Forall (saved_call_upto (length pre)) (trace x)).
Proof.
  intros cutoff x Hcap Hl Hpre Hf.
  assert (Hp : pages (length pre) (50 `min` cap) < fuel).
  { pose proof (pages_le (length pre) (50 `min` cap)). lia. }
  subst x. rewrite fetch_liked_tracks_run. fold cutoff.
  destruct (Datetime.minus_days now (months * 30)) as [c|].
  2:{ split; [reflexivity|]. split; [reflexivity|constructor]. }
  split.
  - intros Hbad.
    destruct (fetch_liked_loop_spotify cap cutoff r Hcap fuel 0 [] pre
                (stop :: post)) as (Hr & _); [exact Hl|exact Hpre| |exact Hp|].
    + cbn. unfold in_window. rewrite Hbad. reflexivity.
    + rewrite Hr. cbn. unfold older. rewrite Hbad. reflexivity.
  - intros Hold.
    destruct (fetch_liked_loop_spotify cap cutoff r Hcap fuel 0 [] pre
                (stop :: post)) as (Hr & _ & _ & Hall);
      [exact Hl|exact Hpre| |exact Hp|].
    + cbn. rewrite (older_not_in_window _ _ Hold). reflexivity.
    + rewrite Hr. cbn. rewrite Hold. split; [reflexivity|exact Hall].
Qed.

Lemma fetch_liked_tracks_malformed_witness :
  (let r := Examples.bad_in_window in
   saved r = [Examples.entry "2024-06-01T00:00:00Z" "new";
              Examples.entry "yesterday" "bad"]
   /\ Datetime.strptime "yesterday" = None
   /\ result (fetch_liked_tracks (spotify 50) 2 Examples.now 12 r)
      = Raise ValueError)
  /\
  (let r := Examples.bad_after_window in
   let x := fetch_liked_tracks (spotify 50) 2 Examples.now 12 r in
   saved r = [Examples.entry "2020-01-01T00:00:00Z" "old";
              Examples.entry "yesterday" "bad"]
   /\ result x = Ok []
   /\ Forall (saved_call_upto 0) (trace x)).
Proof.
  split.
  - intros r. split; [reflexivity|]. split; [vm_compute; reflexivity|].
    destruct (fetch_liked_tracks_malformed 50 2 Examples.now 12 r
                [Examples.entry "2024-06-01T00:00:00Z" "new"]
                (Examples.entry "yesterday" "bad") []) as [Hbad _].
    + lia.
    + reflexivity.
    + vm_compute. reflexivity.
    + simpl. lia.
    + apply Hbad. vm_compute. reflexivity.
  - intros r x. split; [reflexivity|].
    destruct (fetch_liked_tracks_malformed 50 2 Examples.now 12 r []
                (Examples.entry "2020-01-01T00:00:00Z" "old")
                [Examples.entry "yesterday" "bad"]) as [_ Hold].
    + lia.
    + reflexivity.
    + reflexivity.
    + simpl. lia.
    + apply Hold. vm_compute. reflexivity.
Defined.

(** C8, as stated, fails: a library whose second entry has a timestamp that
    does not parse, behind an entry older than the cutoff, makes
    [fetch_liked_tracks] return the empty window without raising; the loop
    returned at the older entry and never read the second one. *)
Lemma malformed_behind_older_entry_is_not_read :
  let r := Examples.bad_after_window in
  let x := fetch_liked_tracks (spotify 50) 5 Examples.now 12 r in
  (exists item, In item (saved r)
                /\ Datetime.strptime (si_added_at item) = None)
  /\ result x = Ok []
  /\ result x <> Raise ValueError
  /\ trace x = [Call_saved_tracks 50 0 2].
Proof.
  intros r x. split.
  - exists (Examples.entry "yesterday" "bad"). split.
    + right. left. reflexivity.
    + vm_compute. reflexivity.
  - split; [vm_compute; reflexivity|]. split; [|vm_compute; reflexivity].
    vm_compute. discriminate.
Qed.


(** C10.  On the reference service, [get_playlist_track_ids] returns the
    identifiers of the entries that have a track, in order: an identifier is
    returned if and only if some entry of the playlist carries a track with
    it, so an entry whose track is [null] contributes nothing.  The update
    issues no write if and only if the set of those identifiers equals the
    desired set, and two playlists that differ only by entries without a
    track get the same writes. *)
Theorem null_tracks_are_skipped cap fuel pid (new : list string) r :
  0 < cap -> length (items_of r pid) < fuel ->
  let actual := map track_id (omap it_track (items_of r pid)) in
  result (get_playlist_track_ids (spotify cap) fuel pid r) = Ok actual
  /\ (forall i, In i actual <->
        exists item, In item (items_of r pid)
                     /\ it_track item = Some {| track_id := i |})
  /\ (writes (trace (update_playlist_if_needed (spotify cap) fuel pid new r))
      = []
      <-> list_to_set actual =@{gset string} list_to_set new)
  /\ (forall r', length (items_of r' pid) < fuel ->
        omap it_track (items_of r' pid) = omap it_track (items_of r pid) ->
        writes (trace (update_playlist_if_needed (spotify cap) fuel pid new r'))
        = writes (trace (update_playlist_if_needed (spotify cap) fuel pid new r))).
Proof.
  intros Hcap Hf actual.
  destruct (get_playlist_track_ids_spotify cap fuel pid r Hcap Hf)
    as (t & Hread & Ht).
  assert (Hwrites : forall r0, length (items_of r0 pid) < fuel ->
    writes (trace (update_playlist_if_needed (spotify cap) fuel pid new r0))
    = if same_set (map track_id (omap it_track (items_of r0 pid))) new
      then []
      else Call_replace_items pid (take 100 new)
           :: map (Call_add_items pid) (appended new)).
  { intros r0 Hf0.
    destruct (update_spotify cap fuel pid new r0 Hcap Hf0) as [_ H].
    rewrite present_ids_tracks in H.
    destruct (same_set _ new); [destruct H as (_ & H & _)|destruct H as [_ H]];
      exact H. }
  rewrite present_ids_tracks in Hread. fold actual in Hread.
  split; [rewrite Hread; reflexivity|]. split; [|split].
  - intros i. subst actual. rewrite in_map_iff. split.
    + intros ([i'] & <- & Hin).
      apply list_elem_of_In, list_elem_of_omap in Hin.
      destruct Hin as (item & Hitem & Htrack).
      exists item. split; [apply list_elem_of_In; exact Hitem|exact Htrack].
    + intros (item & Hitem & Htrack). exists {| track_id := i |}.
      split; [reflexivity|]. apply list_elem_of_In, list_elem_of_omap.
      exists item. split; [apply list_elem_of_In; exact Hitem|exact Htrack].
  - rewrite (Hwrites r Hf). fold actual.
    destruct (same_set actual new) eqn:E.
    + apply same_set_true in E. tauto.
    + apply same_set_false in E. split; [discriminate|tauto].
  - intros r' Hf' Hsame.
    rewrite (Hwrites r' Hf'), (Hwrites r Hf), Hsame. reflexivity.
Qed.

Lemma null_tracks_are_skipped_witness :
  let r := Examples.with_null in
  items_of r "p" = [item_of "A"; {| it_track := None |}; item_of "B"]
  /\ result (get_playlist_track_ids (spotify 100) 4 "p" r) = Ok ["A"; "B"]
  /\ writes (trace (update_playlist_if_needed (spotify 100) 4 "p" ["B"; "A"] r))
     = [].
Proof.
  intros r. split; [reflexivity|].
  destruct (null_tracks_are_skipped 100 4 "p" ["B"; "A"] r)
    as (Hr & _ & Hw & _).
  - lia.
  - vm_compute. lia.
  - split; [exact Hr|]. apply Hw. vm_compute. reflexivity.
Defined.

(* ===================================================================== *)
(** * Part 6: further properties of the two scripts                       *)
(* ===================================================================== *)

(** ** Writes and reads of a trace *)

Lemma writes_cons e t :
  writes (e :: t) = (if is_write e then [e] else []) ++ writes t.
Proof.
  unfold writes. cbn [filter list_filter].
  destruct (is_write e) eqn:E.
  - rewrite decide_True by exact I. reflexivity.
  - rewrite decide_False by exact id. reflexivity.
Qed.

Section Readers.
Context {St : Type} (sp : Spotify St).

Lemma fetch_liked_loop_reads cutoff fuel : forall offset results s,
  Forall saved_read (trace (fetch_liked_loop sp cutoff fuel offset results s)).
Proof.
  induction fuel as [|fuel IH]; intros offset results s; [constructor|].
  cbn [fetch_liked_loop]. unfold bind at 1. unfold sp_saved_tracks.
  destruct (current_user_saved_tracks sp 50 offset s) as [items s1].
  assert (Hev : saved_read (Call_saved_tracks 50 offset (length items)))
    by (eexists _, _; reflexivity).
  destruct items as [|i items]; [repeat constructor; exact Hev|].
  unfold bind, lift.
  destruct (scan_saved cutoff (i :: items) results) as [[res|res]|e|];
    try (repeat constructor; exact Hev).
  specialize (IH (offset + length (i :: items)) res s1).
  destruct (fetch_liked_loop _ _ _ _ _ _) as [[r s2] t2].
  constructor; [exact Hev|exact IH].
Qed.

Lemma get_all_loop_reads fuel : forall offset playlists s,
  Forall listing_read (trace (get_all_loop sp fuel offset playlists s)).
Proof.
  induction fuel as [|fuel IH]; intros offset playlists s; [constructor|].
  cbn [get_all_loop]. unfold bind, sp_user_playlists.
  destruct (current_user_playlists sp 50 offset s) as [resp s1].
  assert (Hev : listing_read
            (Call_user_playlists 50 offset (length (get_items (pp_items resp)))
               (bool_decide (pp_next resp ≠ None))))
    by (eexists _, _, _; reflexivity).
  destruct (get_items (pp_items resp)) as [|i items];
    [repeat constructor; exact Hev|].
  specialize (IH (offset + length (i :: items)) (playlists ++ i :: items) s1).
  destruct (get_all_loop _ _ _ _ _) as [[r s2] t2].
  constructor; [exact Hev|exact IH].
Qed.

Lemma track_ids_loop_reads pid fuel : forall offset ids s,
  Forall (items_read pid) (trace (track_ids_loop sp pid fuel offset ids s)).
Proof.
  induction fuel as [|fuel IH]; intros offset ids s; [constructor|].
  cbn [track_ids_loop]. unfold bind, sp_playlist_items.
  destruct (playlist_items sp pid 100 offset s) as [resp s1].
  assert (Hev : items_read pid
            (Call_playlist_items pid 100 offset
               (length (get_items (ip_items resp)))))
    by (eexists _, _; reflexivity).
  destruct (get_items (ip_items resp)) as [|i items];
    [repeat constructor; exact Hev|].
  specialize (IH (offset + length (i :: items))
                 (ids ++ present_ids (i :: items)) s1).
  destruct (track_ids_loop _ _ _ _ _ _) as [[r s2] t2].
  constructor; [exact Hev|exact IH].
Qed.

Lemma fetch_liked_tracks_reads fuel now months s :
  Forall saved_read (trace (fetch_liked_tracks sp fuel now months s)).
Proof.
  rewrite fetch_liked_tracks_run.
  destruct (Datetime.minus_days now (months * 30));
    [apply fetch_liked_loop_reads|constructor].
Qed.

End Readers.

(** X1.  For any client, every call [fetch_liked_tracks] issues is a request
    for a page of saved tracks with limit 50, every call
    [get_all_user_playlists] issues is a request for a page of playlists with
    limit 50, and every call [get_playlist_track_ids] issues is a request for
    a page of items of the playlist it was given, with limit 100: the three
    readers print nothing and write nothing. *)
Theorem readers_only_read :
  forall St (sp : Spotify St) fuel s,
    (forall now months,
        Forall saved_read (trace (fetch_liked_tracks sp fuel now months s)))
    /\ Forall listing_read (trace (get_all_user_playlists sp fuel s))
    /\ (forall pid,
        Forall (items_read pid) (trace (get_playlist_track_ids sp fuel pid s))).
Proof.
  intros St sp fuel s. split; [|split].
  - intros now months. apply fetch_liked_tracks_reads.
  - apply get_all_loop_reads.
  - intros pid. apply track_ids_loop_reads.
Qed.

Lemma items_read_bounded pid e : items_read pid e -> bounded_write_on pid e.
Proof. intros (o & n & ->). exact I. Qed.

Lemma slice_length_le {A} i (l : list A) : length (slice i (i + 100) l) <= 100.
Proof. rewrite slice_take_drop, length_take. lia. Qed.

Lemma update_bounded {St} (sp : Spotify St) fuel pid (new : list string) s :
  Forall (bounded_write_on pid)
      (trace (update_playlist_if_needed sp fuel pid new s)).
Proof.
  pose proof (track_ids_loop_reads sp pid fuel 0 [] s) as Hreads.
  assert (Hb : Forall (bounded_write_on pid)
                 (trace (track_ids_loop sp pid fuel 0 [] s))).
  { eapply Forall_impl; [exact Hreads|exact (items_read_bounded pid)]. }
  unfold get_playlist_track_ids in Hb.
  destruct (get_playlist_track_ids sp fuel pid s) as [[[existing|e|] s1] t1]
    eqn:E; unfold get_playlist_track_ids in E; rewrite E in Hb;
    cbn [trace snd] in Hb; fold (get_playlist_track_ids sp fuel pid s) in E.
  - rewrite (update_run sp fuel pid new s _ _ _ E).
    destruct (same_set existing new); cbn [trace snd].
    + apply Forall_app. split; [exact Hb|repeat constructor].
    + apply Forall_app. split; [exact Hb|].
      constructor.
      { split; [reflexivity|]. rewrite slice_0, length_take. lia. }
      apply Forall_app. split; [|repeat constructor].
      apply Forall_forall. intros e He. apply list_elem_of_In in He.
      apply in_map_iff in He as (c & <- & Hc).
      unfold appended in Hc. apply in_map_iff in Hc as (i & <- & _).
      split; [reflexivity|apply slice_length_le].
  - unfold update_playlist_if_needed.
    rewrite (bind_raise _ _ _ _ _ _ E). exact Hb.
  - unfold update_playlist_if_needed, bind. rewrite E. exact Hb.
Qed.

(** X3.  For any client and any desired list, no call of
    [update_playlist_if_needed] creates a playlist, and each of its replace
    and add calls is on the playlist it was given and carries at most 100
    identifiers. *)
Theorem update_writes_are_bounded :
  forall St (sp : Spotify St) fuel pid (new : list string) s,
    Forall (bounded_write_on pid)
      (trace (update_playlist_if_needed sp fuel pid new s)).
Proof.
  intros St sp fuel pid new s. apply update_bounded.
Qed.

(** ** The listing and the update on the reference service *)

Lemma get_all_loop_spotify cap r :
  0 < cap -> forall fuel offset playlists,
  length (drop offset (listing r)) < fuel ->
  let x := get_all_loop (spotify cap) fuel offset playlists r in
  result x = Ok (playlists ++ drop offset (listing r)) /\ final x = r.
Proof.
  intros Hcap. induction fuel as [|fuel IH]; intros offset playlists Hf; [lia|].
  cbn [get_all_loop].
  rewrite (bind_ok _ _ r _ _ _ eq_refl).
  cbn [pp_items get_items default from_option id result final trace fst snd].
  pose proof (page_split cap 50 offset (listing r)) as Hs.
  destruct (page cap 50 offset (listing r)) as [|i items] eqn:E.
  - apply page_nil in E; [|lia|lia]. rewrite E.
    cbn. rewrite app_nil_r. done.
  - rewrite Hs in Hf |- *. rewrite length_app in Hf. cbn [length] in Hf.
    destruct (IH (offset + length (i :: items)) (playlists ++ i :: items))
      as [Hr Hfin].
    { cbn [length]. lia. }
    rewrite Hr, Hfin. rewrite app_assoc. done.
Qed.

(** X2.  On the reference service, whatever its page size, with fuel above
    the length of the listing, [get_all_user_playlists] returns the whole
    listing in its order, leaves the service as it was and writes nothing. *)
Theorem get_all_user_playlists_complete cap fuel r :
  0 < cap -> length (listing r) < fuel ->
  let x := get_all_user_playlists (spotify cap) fuel r in
  result x = Ok (listing r)
  /\ final x = r
  /\ writes (trace x) = [].
Proof.
  intros Hcap Hf x.
  destruct (get_all_loop_spotify cap r Hcap fuel 0 [] Hf) as [Hr Hfin].
  split; [exact Hr|]. split; [exact Hfin|].
  pose proof (get_all_loop_reads (spotify cap) fuel 0 [] r) as Hreads.
  fold x. change (get_all_loop (spotify cap) fuel 0 [] r) with x in Hreads.
  unfold writes. induction Hreads as [|e t (o & n & b & ->) _ IH]; [done|].
  cbn. rewrite decide_False by (cbn; tauto). exact IH.
Qed.

Lemma get_all_user_playlists_complete_witness :
  let x := get_all_user_playlists (spotify 10) 36 Examples.crowded in
  result x = Ok (listing Examples.crowded)
  /\ final x = Examples.crowded
  /\ writes (trace x) = []
  /\ length (trace x) = 5.
Proof.
  intros x.
  destruct (get_all_user_playlists_complete 10 36 Examples.crowded)
    as (Hr & Hfin & Hw).
  - lia.
  - vm_compute. lia.
  - split; [exact Hr|]. split; [exact Hfin|]. split; [exact Hw|].
    vm_compute. reflexivity.
Defined.

(** Frame of the writes. *)
Lemma add_all_account cap pid (chunks : list (list string)) : forall r,
  account_of (add_all (spotify cap) pid chunks r) = account_of r
  /\ forall other, other <> pid ->
       contents (add_all (spotify cap) pid chunks r) !! other
       = contents r !! other.
Proof.
  induction chunks as [|c chunks IH]; intros r; [done|].
  rewrite add_all_cons. destruct (IH (playlist_add_items (spotify cap) pid c r))
    as [Ha Ho].
  split; [rewrite Ha; reflexivity|].
  intros other Hne. rewrite (Ho other Hne).
  cbn [spotify playlist_add_items set_contents contents].
  apply lookup_insert_ne. congruence.
Qed.

Lemma update_frame cap fuel pid (new : list string) r :
  0 < cap -> length (items_of r pid) < fuel ->
  let x := update_playlist_if_needed (spotify cap) fuel pid new r in
  account_of (final x) = account_of r
  /\ forall other, other <> pid ->
       contents (final x) !! other = contents r !! other.
Proof.
  intros Hcap Hf x.
  destruct (get_playlist_track_ids_spotify cap fuel pid r Hcap Hf)
    as (t & Hread & _).
  subst x. rewrite (update_run (spotify cap) fuel pid new r _ _ _ Hread).
  destruct (same_set _ _); cbn [final fst snd]; [done|].
  destruct (add_all_account cap pid (appended new)
              (playlist_replace_items (spotify cap) pid (slice 0 100 new) r))
    as [Ha Ho].
  split; [rewrite Ha; reflexivity|].
  intros other Hne. rewrite (Ho other Hne).
  cbn [spotify playlist_replace_items set_contents contents].
  apply lookup_insert_ne. congruence.
Qed.

(** X4.  On the reference service, [update_playlist_if_needed] leaves the
    user, the saved tracks, the listing and the items of every other
    playlist as they were. *)
Theorem update_leaves_the_rest cap fuel pid (new : list string) r :
  0 < cap -> length (items_of r pid) < fuel ->
  let x := update_playlist_if_needed (spotify cap) fuel pid new r in
  account_of (final x) = account_of r
  /\ forall other, other <> pid ->
       contents (final x) !! other = contents r !! other.
Proof. apply update_frame. Qed.

Lemma update_leaves_the_rest_witness :
  let x := update_playlist_if_needed (spotify 50) 3 "p" ["B"; "C"]
             Cases.two_lists in
  account_of (final x) = account_of Cases.two_lists
  /\ contents (final x) !! "q" = Some (map item_of ["X"; "Y"])
  /\ contents (final x) !! "p" = Some (map item_of ["B"; "C"]).
Proof.
  intros x.
  destruct (update_leaves_the_rest 50 3 "p" ["B"; "C"] Cases.two_lists)
    as (Ha & Ho).
  - lia.
  - vm_compute. lia.
  - split; [exact Ha|]. split; [|vm_compute; reflexivity].
    fold x in Ho. rewrite (Ho "q") by discriminate.
    vm_compute. reflexivity.
Defined.

Lemma appended_short (new : list string) :
  length new <= 100 -> appended new = [].
Proof.
  intros H. rewrite appended_eq. unfold appends.
  rewrite Nat.div_small by lia. reflexivity.
Qed.

(** X5.  On the reference service, when the desired list has at most 100
    identifiers and its set differs from the set of the playlist, the update
    writes by one replace call that carries the whole list, and no add call
    follows; the playlist then holds the list in its order. *)
Theorem update_short_list_is_one_replace cap fuel pid (new : list string) r :
  0 < cap -> length (items_of r pid) < fuel -> length new <= 100 ->
  list_to_set (present_ids (items_of r pid)) ≠@{gset string} list_to_set new ->
  let x := update_playlist_if_needed (spotify cap) fuel pid new r in
  result x = Ok tt
  /\ writes (trace x) = [Call_replace_items pid new]
  /\ items_of (final x) pid = map item_of new.
Proof.
  intros Hcap Hf Hn Hne x.
  destruct (update_spotify cap fuel pid new r Hcap Hf) as [Hr H].
  fold x in Hr, H. apply same_set_false in Hne. rewrite Hne in H.
  destruct H as [Hitems Hw].
  rewrite (appended_short new Hn), take_ge in Hw by exact Hn.
  done.
Qed.

Lemma update_short_list_is_one_replace_witness :
  let x := update_playlist_if_needed (spotify 50) 3 "q" ["Y"; "W"]
             Cases.two_lists in
  result x = Ok tt
  /\ writes (trace x) = [Call_replace_items "q" ["Y"; "W"]]
  /\ items_of (final x) "q" = map item_of ["Y"; "W"].
Proof.
  intros x.
  apply (update_short_list_is_one_replace 50 3 "q" ["Y"; "W"] Cases.two_lists).
  - lia.
  - vm_compute. lia.
  - simpl. lia.
  - apply same_set_false. vm_compute. reflexivity.
Defined.

(** X6.  On the reference service with pages of 50, [find_or_create_playlist]
    returns the identifier of the first playlist of the listing that bears
    the name and is owned by the user, without a write and without a change
    of the service; when no playlist of the listing is such, it creates one,
    private, by one call, returns the new identifier, and the new playlist
    is at the head of the listing and empty. *)
Theorem find_or_create_finds_first_or_creates cap fuel user name r :
  50 <= cap -> length (listing r) / 50 < fuel ->
  let x := find_or_create_playlist (spotify cap) fuel user name r in
  let fresh := "playlist-" +:+ pretty (created r) in
  (forall before pl after,
      listing r = before ++ pl :: after ->
      forallb (fun p => negb (matches user name p)) before = true ->
      matches user name pl = true ->
      result x = Ok (pl_id pl) /\ final x = r /\ writes (trace x) = [])
  /\ (forallb (fun p => negb (matches user name p)) (listing r) = true ->
      result x = Ok fresh
      /\ writes (trace x) = [Call_playlist_create user name false]
      /\ listing (final x)
         = {| pl_id := fresh; pl_name := name; pl_owner := user |} :: listing r
      /\ items_of (final x) fresh = []).
Proof.
  intros Hcap Hf x fresh.
  pose proof (find_or_create_spotify cap fuel user name r Hcap Hf) as H.
  fold x in H.
  assert (Hnone : forall l, forallb (fun p => negb (matches user name p)) l = true ->
                            find (matches user name) l = None).
  { induction l as [|p l IH]; [done|]. cbn [forallb find].
    intros Hl. apply andb_prop in Hl as [Hp Hl].
    apply negb_true_iff in Hp. rewrite Hp. exact (IH Hl). }
  split.
  - intros before pl after Hl Hb Hm.
    rewrite Hl, find_app_first, (Hnone _ Hb) in H. cbn [find] in H.
    rewrite Hm in H. exact H.
  - intros Hall. rewrite (Hnone _ Hall) in H.
    destruct H as (Hr & Hfin & Hw).
    split; [exact Hr|]. split; [exact Hw|]. rewrite Hfin.
    split; [reflexivity|].
    unfold items_of. cbn [create snd contents]. rewrite lookup_insert_eq.
    reflexivity.
Qed.

Lemma find_or_create_finds_first_or_creates_witness :
  (let x := find_or_create_playlist (spotify 50) 1 "me" ROTATION_NAME
              Cases.two_named in
   result x = Ok "first" /\ final x = Cases.two_named
   /\ writes (trace x) = [])
  /\
  (let x := find_or_create_playlist (spotify 50) 1 "me" ROTATION_NAME
              Cases.unnamed in
   result x = Ok "playlist-0"
   /\ writes (trace x) = [Call_playlist_create "me" ROTATION_NAME false]
   /\ listing (final x)
      = {| pl_id := "playlist-0"; pl_name := ROTATION_NAME; pl_owner := "me" |}
        :: listing Cases.unnamed
   /\ items_of (final x) "playlist-0" = []).
Proof.
  split.
  - destruct (find_or_create_finds_first_or_creates 50 1 "me" ROTATION_NAME
                Cases.two_named) as [Hfound _].
    + lia.
    + vm_compute. lia.
    + apply (Hfound [Examples.filler 0]
               {| pl_id := "first"; pl_name := ROTATION_NAME; pl_owner := "me" |}
               [{| pl_id := "second"; pl_name := ROTATION_NAME;
                   pl_owner := "me" |}]).
      * reflexivity.
      * vm_compute. reflexivity.
      * vm_compute. reflexivity.
  - destruct (find_or_create_finds_first_or_creates 50 1 "me" ROTATION_NAME
                Cases.unnamed) as [_ Hnone].
    + lia.
    + vm_compute. lia.
    + apply Hnone. vm_compute. reflexivity.
Defined.

(** X7.  For any client, the writes of [find_or_create_playlist] are none, or
    one call that creates a private playlist of the name asked for, for the
    user asked for. *)
Theorem find_or_create_creates_at_most_once :
  forall St (sp : Spotify St) fuel user name s,
    let x := find_or_create_playlist sp fuel user name s in
    writes (trace x) = []
    \/ writes (trace x) = [Call_playlist_create user name false].
Proof.
  intros St sp fuel user name s x. subst x.
  pose proof (find_loop_no_write sp user name fuel 0 s) as Hw.
  unfold find_or_create_playlist, bind, ret.
  destruct (find_loop sp user name fuel 0 s) as [[[[i|]|e|] s1] t1];
    cbn [trace snd] in Hw |- *.
  - left. rewrite app_nil_r. exact Hw.
  - right. unfold sp_playlist_create.
    destruct (user_playlist_create sp user name false s1) as [i s2].
    cbn [trace snd]. rewrite writes_reads_then by exact Hw. reflexivity.
  - left. exact Hw.
  - left. exact Hw.
Qed.

(** X18.  On the reference service with full pages, two calls of
    [find_or_create_playlist] in a row for the same user and name return
    the same identifier; the second call issues no create call and no other
    write and leaves the service as the first left it; and afterwards the
    listing holds one playlist of that name and owner if it held at most
    one before (as many as before if it held more). *)
Theorem find_or_create_twice cap fuel user name r :
  50 <= cap -> length (listing r) < fuel ->
  let first := find_or_create_playlist (spotify cap) fuel user name r in
  let second :=
    find_or_create_playlist (spotify cap) fuel user name (final first) in
  (exists i, result first = Ok i /\ result second = Ok i)
  /\ filter is_create (trace second) = []
  /\ writes (trace second) = []
  /\ final second = final first
  /\ count_matching user name (final second)
     = 1 `max` count_matching user name r.
Proof.
  intros Hcap Hf first second.
  assert (Hf1 : length (listing r) / 50 < fuel).
  { pose proof (Nat.Div0.div_le_upper_bound (length (listing r)) 50
                  (length (listing r))).
    lia. }
  pose proof (find_or_create_spotify cap fuel user name r Hcap Hf1) as H1.
  fold first in H1.
  destruct (find (matches user name) (listing r)) as [pl|] eqn:E.
  - destruct H1 as (Hr1 & Hfin1 & Hw1).
    pose proof (find_or_create_spotify cap fuel user name (final first) Hcap)
      as H2.
    fold second in H2. rewrite Hfin1, E in H2.
    destruct (H2 Hf1) as (Hr2 & Hfin2 & Hw2).
    split; [exists (pl_id pl); done|].
    split; [exact (no_write_no_create _ Hw2)|]. split; [done|].
    split; [congruence|]. rewrite Hfin2. unfold count_matching.
    pose proof (find_some_count _ _ _ E). lia.
  - destruct H1 as (Hr1 & Hfin1 & Hw1).
    pose proof (find_or_create_spotify cap fuel user name (final first) Hcap)
      as H2.
    fold second in H2. rewrite Hfin1 in H2.
    cbn [create snd listing find] in H2. rewrite matches_refl in H2.
    destruct H2 as (Hr2 & Hfin2 & Hw2).
    { cbn [length].
      pose proof (Nat.Div0.div_le_upper_bound (S (length (listing r))) 50
                    (length (listing r))).
      destruct (length (listing r)) as [|n] eqn:En; [|lia].
      rewrite Nat.div_small by lia. lia. }
    split; [eexists; split; [exact Hr1|exact Hr2]|].
    split; [exact (no_write_no_create _ Hw2)|]. split; [done|].
    split; [rewrite Hfin2, Hfin1; reflexivity|]. rewrite Hfin2.
    unfold count_matching.
    cbn [create snd listing List.filter]. rewrite matches_refl.
    rewrite (find_none_count _ _ E). reflexivity.
Qed.

Lemma find_or_create_twice_witness :
  let r := Examples.no_playlists in
  let first := find_or_create_playlist (spotify 50) 1 "me" ROTATION_NAME r in
  let second :=
    find_or_create_playlist (spotify 50) 1 "me" ROTATION_NAME (final first) in
  result first = Ok "playlist-0"
  /\ result second = Ok "playlist-0"
  /\ writes (trace first) = [Call_playlist_create "me" ROTATION_NAME false]
  /\ writes (trace second) = []
  /\ count_matching "me" ROTATION_NAME (final second) = 1.
Proof.
  intros r first second.
  destruct (find_or_create_twice 50 1 "me" ROTATION_NAME r)
    as (_ & _ & Hw & _ & Hc).
  - lia.
  - simpl. lia.
  - split; [vm_compute; reflexivity|]. split; [vm_compute; reflexivity|].
    split; [vm_compute; reflexivity|]. split; [exact Hw|].
    fold first second in Hc. rewrite Hc. reflexivity.
Defined.

(** ** The whole run *)

(** X8.  For any client, when [fetch_liked_tracks] raises, [main] ends with
    that exception in the state the reader left: after the call for the
    current user it has issued the reads of saved tracks only, so it has
    neither listed the playlists nor written nor printed. *)
Theorem main_stops_when_reader_raises {St} (sp : Spotify St)
    fuel now s user s1 e s2 t2 :
  current_user sp s = (user, s1) ->
  fetch_liked_tracks sp fuel now MONTHS_BACK s1 = (Raise e, s2, t2) ->
  main sp fuel now s = (Raise e, s2, Call_current_user :: t2)
  /\ Forall saved_read t2.
Proof.
  intros Hu Hfetch. split.
  - unfold main.
    rewrite (bind_ok _ _ _ _ _ _ (sp_current_user_run _ _ _ _ Hu)).
    rewrite (bind_raise _ _ _ _ _ _ Hfetch). reflexivity.
  - pose proof (fetch_liked_tracks_reads sp fuel now MONTHS_BACK s1) as H.
    rewrite Hfetch in H. exact H.
Qed.

Lemma main_stops_when_reader_raises_witness :
  main (spotify 50) 3 Examples.now Examples.bad_in_window
  = (Raise ValueError, Examples.bad_in_window,
     [Call_current_user; Call_saved_tracks 50 0 2])
  /\ Forall saved_read [Call_saved_tracks 50 0 2].
Proof.
  apply (main_stops_when_reader_raises (spotify 50) 3 Examples.now
           Examples.bad_in_window "me" Examples.bad_in_window ValueError
           Examples.bad_in_window [Call_saved_tracks 50 0 2]).
  - reflexivity.
  - vm_compute. reflexivity.
Defined.

Lemma select_target_no_write {St} (playlists : list Playlist) (s : St) :
  writes (trace (select_target playlists s)) = [].
Proof.
  induction playlists as [|pl rest IH]; [reflexivity|].
  cbn [select_target].
  rewrite (bind_ok _ _ s tt s _ eq_refl).
  destruct (String.eqb (pl_name pl) ROTATION_NAME).
  - rewrite (bind_ok _ _ s tt s _ eq_refl). reflexivity.
  - cbn [trace snd]. repeat (rewrite writes_app || rewrite writes_cons); cbn [is_write app]. rewrite IH. reflexivity.
Qed.

Lemma named_target_of_matches user pl :
  matches user ROTATION_NAME pl = true -> named_target pl = true.
Proof. unfold matches, named_target. intros H. apply andb_prop in H as [H _]. exact H. Qed.

Lemma find_named_none_matches user (l : list Playlist) :
  find named_target l = None -> find (matches user ROTATION_NAME) l = None.
Proof.
  induction l as [|pl l IH]; [done|]. cbn [find].
  destruct (named_target pl) eqn:E; [discriminate|].
  destruct (matches user ROTATION_NAME pl) eqn:M.
  - apply named_target_of_matches in M. congruence.
  - exact IH.
Qed.

Lemma fetch_liked_tracks_spotify cap fuel now months r c :
  0 < cap -> length (saved r) < fuel -> newest_first (saved r) = true ->
  Datetime.minus_days now (months * 30) = Some c ->
  exists t,
    fetch_liked_tracks (spotify cap) fuel now months r
    = (Ok (saved_ids (List.filter
             (in_window (now - Datetime.timedelta_days (months * 30))%Z)
             (saved r))), r, t)
    /\ writes t = [].
Proof.
  intros Hcap Hf Hs Hc.
  set (cutoff := (now - Datetime.timedelta_days (months * 30))%Z).
  destruct (newest_first_split cutoff (saved r) None Hs)
    as (pre & post & Hl & Hpre & Hpost & Hfil).
  apply stops_of_older in Hpost as [Hstop Hres].
  destruct (fetch_liked_loop_spotify cap cutoff r Hcap fuel 0 [] pre post)
    as (Hr & Hfin & _); [exact Hl|exact Hpre|exact Hstop| |].
  - pose proof (pages_le (length pre) (50 `min` cap)).
    rewrite Hl, length_app in Hf. lia.
  - exists (trace (fetch_liked_tracks (spotify cap) fuel now months r)).
    split; [|apply fetch_liked_tracks_no_write].
    rewrite fetch_liked_tracks_run, Hc. fold cutoff.
    apply run_ok; [|exact Hfin].
    rewrite Hr, Hres, Hfil. reflexivity.
Qed.

Lemma get_all_user_playlists_spotify cap fuel r :
  0 < cap -> length (listing r) < fuel ->
  exists t,
    get_all_user_playlists (spotify cap) fuel r = (Ok (listing r), r, t)
    /\ writes t = [].
Proof.
  intros Hcap Hf.
  destruct (get_all_loop_spotify cap r Hcap fuel 0 [] Hf) as [Hr Hfin].
  exists (trace (get_all_user_playlists (spotify cap) fuel r)). split.
  - apply run_ok; [exact Hr|exact Hfin].
  - pose proof (get_all_loop_reads (spotify cap) fuel 0 [] r) as Hreads.
    unfold get_all_user_playlists, writes.
    induction Hreads as [|e t (o & n & b & ->) _ IH]; [done|].
    cbn. rewrite decide_False by (cbn; tauto). exact IH.
Qed.

(** Without a cutoff, [main] ends after its first call. *)
Lemma main_overflow {St} (sp : Spotify St) fuel now s :
  Datetime.minus_days now (MONTHS_BACK * 30) = None ->
  main sp fuel now s
  = (Raise OverflowError, (current_user sp s).2, [Call_current_user]).
Proof.
  intros Hc. unfold main.
  destruct (current_user sp s) as [u s1] eqn:Eu.
  rewrite (bind_ok _ _ _ _ _ _ (sp_current_user_run _ _ _ _ Eu)).
  rewrite (bind_raise _ _ s1 OverflowError s1 []); [reflexivity|].
  rewrite fetch_liked_tracks_run, Hc. reflexivity.
Qed.

(** [main] on the reference service, reduced to the update it ends with. *)
Lemma main_spotify cap fuel now r c :
  50 <= cap -> length (saved r) < fuel -> length (listing r) < fuel ->
  newest_first (saved r) = true ->
  Datetime.minus_days now (MONTHS_BACK * 30) = Some c ->
  let x := main (spotify cap) fuel now r in
  let window := main_window now r in
  match listing r with
  | [] => result x = Ok tt /\ final x = r /\ writes (trace x) = []
  | _ :: _ =>
      match find named_target (listing r) with
      | Some pl =>
          let u := update_playlist_if_needed (spotify cap) fuel (pl_id pl)
                     window r in
          result x = result u /\ final x = final u
          /\ writes (trace x) = writes (trace u)
      | None =>
          let c := create (me r) ROTATION_NAME r in
          let u := update_playlist_if_needed (spotify cap) fuel c.1 window c.2 in
          result x = result u /\ final x = final u
          /\ writes (trace x)
             = Call_playlist_create (me r) ROTATION_NAME false
               :: writes (trace u)
      end
  end.
Proof.
  intros Hcap Hfs Hfl Hs Hc x window.
  destruct (fetch_liked_tracks_spotify cap fuel now MONTHS_BACK r c)
    as (t2 & Hfetch & Hw2); [lia|exact Hfs|exact Hs|exact Hc|].
  destruct (get_all_user_playlists_spotify cap fuel r)
    as (t3 & Hall & Hw3); [lia|exact Hfl|].
  fold (main_cutoff now) in Hfetch. fold (main_window now r) in Hfetch.
  fold window in Hfetch.
  subst x. unfold main.
  rewrite (bind_ok _ _ r (me r) r [Call_current_user] eq_refl).
  rewrite (bind_ok _ _ _ _ _ _ Hfetch).
  rewrite (bind_ok _ _ r tt r _ eq_refl).
  rewrite (bind_ok _ _ r tt r _ eq_refl).
  rewrite (bind_ok _ _ _ _ _ _ Hall).
  cbn [result final trace fst snd].
  destruct (listing r) as [|pl0 rest] eqn:El.
  { cbn [length Nat.ltb Nat.leb negb].
    rewrite (bind_ok _ _ r tt r _ eq_refl).
    cbn [result final trace fst snd ret].
    repeat (rewrite writes_app || rewrite writes_cons); cbn [is_write app]. rewrite Hw2, Hw3. done. }
  cbn [length Nat.ltb Nat.leb negb].
  rewrite (bind_ok _ _ r tt r [] eq_refl).
  rewrite (bind_ok _ _ r tt r _ eq_refl).
  destruct (select_target_by_name (pl0 :: rest) r) as [Hsel Hsfin].
  pose proof (select_target_no_write (pl0 :: rest) r) as Hsw.
  rewrite (bind_ok _ _ _ _ _ _ (run_ok _ _ _ Hsel Hsfin)).
  cbn [result final trace fst snd app].
  destruct (find named_target (pl0 :: rest)) as [pl|] eqn:Ef;
    cbn [fmap option_fmap option_map].
  - rewrite (bind_ok _ _ r tt r _ eq_refl).
    cbn [result final trace fst snd].
    repeat (rewrite writes_app || rewrite writes_cons); cbn [is_write app]. rewrite Hw2, Hw3, Hsw. done.
  - rewrite (bind_ok _ _ r tt r _ eq_refl).
    pose proof (find_or_create_spotify cap fuel (me r) ROTATION_NAME r Hcap)
      as Hfc.
    rewrite El, (find_named_none_matches _ _ Ef) in Hfc.
    destruct Hfc as (Hr & Hfin & Hw).
    { pose proof (Nat.Div0.div_le_upper_bound (length (pl0 :: rest)) 50
                    (length (pl0 :: rest))). lia. }
    rewrite (bind_ok _ _ _ _ _ _ (run_ok _ _ _ Hr Hfin)).
    cbn [result final trace fst snd].
    repeat (rewrite writes_app || rewrite writes_cons); cbn [is_write app]. rewrite Hw2, Hw3, Hsw, Hw. done.
Qed.

(** The update on the reference service and the state it leaves. *)
Lemma update_settles cap fuel pid (new : list string) r :
  0 < cap -> length (items_of r pid) < fuel -> length new < fuel ->
  let x := update_playlist_if_needed (spotify cap) fuel pid new r in
  result x = Ok tt
  /\ writes (trace x)
     = (if same_set (present_ids (items_of r pid)) new then []
        else rewrite_calls pid new)
  /\ same_set (present_ids (items_of (final x) pid)) new = true
  /\ length (items_of (final x) pid) < fuel
  /\ account_of (final x) = account_of r.
Proof.
  intros Hcap Hf Hn x.
  destruct (update_spotify cap fuel pid new r Hcap Hf) as [Hr H].
  destruct (update_frame cap fuel pid new r Hcap Hf) as [Ha _].
  fold x in Hr, H, Ha.
  split; [exact Hr|].
  destruct (same_set (present_ids (items_of r pid)) new) eqn:E.
  - destruct H as (Hfin & Hw & _). rewrite Hfin. done.
  - destruct H as (Hitems & Hw). rewrite Hitems, present_ids_item_of, length_map.
    split; [exact Hw|]. split; [apply same_set_true; reflexivity|]. done.
Qed.

Lemma account_of_eq r r' :
  account_of r = account_of r' ->
  me r = me r' /\ saved r = saved r' /\ listing r = listing r'
  /\ created r = created r'.
Proof. unfold account_of. intros [= -> -> -> ->]. done. Qed.

Lemma same_set_nil (new : list string) :
  same_set [] new = match new with [] => true | _ :: _ => false end.
Proof.
  destruct new as [|i new].
  - apply same_set_true. reflexivity.
  - apply same_set_false. cbn. set_solver.
Qed.

Lemma main_window_length now r : length (main_window now r) <= length (saved r).
Proof.
  unfold main_window, saved_ids. rewrite length_map. apply filter_length_le.
Qed.

Lemma find_named_none (l : list Playlist) :
  forallb (fun pl => negb (named_target pl)) l = true ->
  find named_target l = None.
Proof.
  induction l as [|p l IH]; [done|]. cbn [forallb find].
  intros Hl. apply andb_prop in Hl as [Hp Hl].
  apply negb_true_iff in Hp. rewrite Hp. exact (IH Hl).
Qed.

(** X9.  On the reference service with pages of 50, with a library sorted
    newest first and a listing that is not empty and holds no playlist of
    the name [ROTATION_NAME], [main] creates one private playlist of that
    name and then, unless the window is empty, writes the window to it (a
    replace of its first 100 identifiers and adds of the chunks that
    follow); the new playlist is at the head of the listing and holds the
    window in its order.  When twelve months of thirty days before [now] is
    no date, [main] instead raises [OverflowError] after its first call. *)
Theorem main_creates_and_fills cap fuel now r :
  50 <= cap -> length (saved r) < fuel -> length (listing r) < fuel ->
  newest_first (saved r) = true ->
  listing r <> [] ->
  forallb (fun pl => negb (named_target pl)) (listing r) = true ->
  let x := main (spotify cap) fuel now r in
  let window := main_window now r in
  let fresh := "playlist-" +:+ pretty (created r) in
  match Datetime.minus_days now (MONTHS_BACK * 30) with
  | None => x = (Raise OverflowError, r, [Call_current_user])
  | Some _ =>
      result x = Ok tt
      /\ writes (trace x)
         = Call_playlist_create (me r) ROTATION_NAME false
           :: match window with
              | [] => []
              | _ :: _ => rewrite_calls fresh window
              end
      /\ listing (final x)
         = {| pl_id := fresh; pl_name := ROTATION_NAME; pl_owner := me r |}
           :: listing r
      /\ items_of (final x) fresh = map item_of window
  end.
Proof.
  intros Hcap Hfs Hfl Hs Hne Hnone x window fresh.
  destruct (Datetime.minus_days now (MONTHS_BACK * 30)) as [cut|] eqn:Hc;
    [|exact (main_overflow (spotify cap) fuel now r Hc)].
  pose proof (main_spotify cap fuel now r cut Hcap Hfs Hfl Hs Hc) as H.
  fold x window in H. rewrite (find_named_none _ Hnone) in H.
  destruct (listing r) as [|pl0 rest] eqn:El; [congruence|].
  cbn zeta in H. destruct H as (Hr & Hfin & Hw).
  set (c := create (me r) ROTATION_NAME r) in *.
  assert (Hitems : items_of c.2 c.1 = []).
  { unfold items_of, c. cbn [create fst snd contents].
    rewrite lookup_insert_eq. reflexivity. }
  pose proof (main_window_length now r) as Hwl. fold window in Hwl.
  destruct (update_spotify cap fuel c.1 window c.2) as [Hur Hu];
    [lia|rewrite Hitems; cbn; lia|].
  destruct (update_frame cap fuel c.1 window c.2) as [Ha _];
    [lia|rewrite Hitems; cbn; lia|].
  rewrite Hr, Hw, Hfin. split; [exact Hur|].
  assert (Hl : listing (final (update_playlist_if_needed (spotify cap) fuel
                                 c.1 window c.2))
               = {| pl_id := fresh; pl_name := ROTATION_NAME; pl_owner := me r |}
                 :: pl0 :: rest).
  { apply account_of_eq in Ha as (_ & _ & Hl & _). rewrite Hl.
    unfold c. cbn [create snd listing]. rewrite El. reflexivity. }
  rewrite Hitems in Hu. cbn [present_ids omap list_omap] in Hu.
  rewrite same_set_nil in Hu.
  destruct window as [|i w].
  - destruct Hu as (Hf' & Hw' & _). rewrite Hw'.
    split; [reflexivity|]. split; [exact Hl|].
    rewrite Hf'. exact Hitems.
  - destruct Hu as (Hit & Hw'). rewrite Hw'.
    split; [reflexivity|]. split; [exact Hl|exact Hit].
Qed.

Lemma main_creates_and_fills_witness :
  let x := main (spotify 50) 4 Examples.now Cases.unnamed in
  result x = Ok tt
  /\ writes (trace x)
     = [Call_playlist_create "me" ROTATION_NAME false;
        Call_replace_items "playlist-0" ["A"; "B"]]
  /\ listing (final x)
     = [{| pl_id := "playlist-0"; pl_name := ROTATION_NAME; pl_owner := "me" |};
        Examples.filler 0]
  /\ items_of (final x) "playlist-0" = map item_of ["A"; "B"].
Proof.
  intros x.
  pose proof (main_creates_and_fills 50 4 Examples.now Cases.unnamed) as H.
  cbv zeta in H.
  replace (Datetime.minus_days Examples.now (MONTHS_BACK * 30))
    with (Some (Datetime.datetime 2023 6 21 12 0 0 0)) in H
    by (vm_compute; reflexivity).
  destruct H as (Hr & Hw & Hl & Hi).
  - lia.
  - vm_compute. lia.
  - vm_compute. lia.
  - vm_compute. reflexivity.
  - discriminate.
  - vm_compute. reflexivity.
  - fold x in Hr, Hw, Hl, Hi.
    split; [exact Hr|]. split; [rewrite Hw; vm_compute; reflexivity|].
    split; [exact Hl|exact Hi].
Defined.

(** X10.  On the reference service with pages of 50, with a library sorted
    newest first, [main] works on the first playlist of the listing that
    bears the name [ROTATION_NAME]: it writes nothing when the set of that
    playlist is the set of the window, and otherwise rewrites it; the
    playlist then holds the set of the window, and the user, the library and
    the listing are as they were (no playlist is created).  When twelve
    months of thirty days before [now] is no date, [main] instead raises
    [OverflowError] after its first call. *)
Theorem main_updates_first_named cap fuel now r before pl after :
  50 <= cap -> length (saved r) < fuel -> length (listing r) < fuel ->
  newest_first (saved r) = true ->
  listing r = before ++ pl :: after ->
  forallb (fun p => negb (named_target p)) before = true ->
  named_target pl = true ->
  length (items_of r (pl_id pl)) < fuel ->
  let x := main (spotify cap) fuel now r in
  let window := main_window now r in
  match Datetime.minus_days now (MONTHS_BACK * 30) with
  | None => x = (Raise OverflowError, r, [Call_current_user])
  | Some _ =>
      result x = Ok tt
      /\ writes (trace x)
         = (if same_set (present_ids (items_of r (pl_id pl))) window then []
            else rewrite_calls (pl_id pl) window)
      /\ list_to_set (present_ids (items_of (final x) (pl_id pl)))
         =@{gset string} list_to_set window
      /\ account_of (final x) = account_of r
  end.
Proof.
  intros Hcap Hfs Hfl Hs Hl Hb Hp Hfi x window.
  destruct (Datetime.minus_days now (MONTHS_BACK * 30)) as [cut|] eqn:Hc;
    [|exact (main_overflow (spotify cap) fuel now r Hc)].
  pose proof (main_spotify cap fuel now r cut Hcap Hfs Hfl Hs Hc) as H.
  fold x window in H.
  assert (Hfind : find named_target (listing r) = Some pl).
  { rewrite Hl, find_app_first, (find_named_none _ Hb). cbn [find].
    rewrite Hp. reflexivity. }
  rewrite Hfind in H.
  destruct (listing r) as [|pl0 rest] eqn:El; [destruct before; discriminate|].
  cbn zeta in H. destruct H as (Hr & Hfin & Hw).
  pose proof (main_window_length now r) as Hwl. fold window in Hwl.
  destruct (update_settles cap fuel (pl_id pl) window r)
    as (Hur & Huw & Hus & _ & Ha); [lia|exact Hfi|lia|].
  rewrite Hr, Hw, Hfin. split; [exact Hur|]. split; [exact Huw|].
  split; [apply same_set_true; exact Hus|exact Ha].
Qed.

Lemma main_updates_first_named_witness :
  let x := main (spotify 50) 4 Examples.now Cases.two_named in
  result x = Ok tt
  /\ writes (trace x) = [Call_replace_items "first" ["A"; "B"]]
  /\ items_of (final x) "second" = [item_of "A"]
  /\ account_of (final x) = account_of Cases.two_named.
Proof.
  intros x.
  pose proof (main_updates_first_named 50 4 Examples.now Cases.two_named
                [Examples.filler 0]
                {| pl_id := "first"; pl_name := ROTATION_NAME;
                   pl_owner := "me" |}
                [{| pl_id := "second"; pl_name := ROTATION_NAME;
                    pl_owner := "me" |}]) as H.
  cbv zeta in H.
  replace (Datetime.minus_days Examples.now (MONTHS_BACK * 30))
    with (Some (Datetime.datetime 2023 6 21 12 0 0 0)) in H
    by (vm_compute; reflexivity).
  destruct H as (Hr & Hw & _ & Ha).
  - lia.
  - vm_compute. lia.
  - vm_compute. lia.
  - vm_compute. reflexivity.
  - reflexivity.
  - vm_compute. reflexivity.
  - vm_compute. reflexivity.
  - vm_compute. lia.
  - fold x in Hr, Hw, Ha.
    split; [exact Hr|]. split; [rewrite Hw; vm_compute; reflexivity|].
    split; [vm_compute; reflexivity|exact Ha].
Defined.

(** X11.  On the reference service with pages of 50, with a library sorted
    newest first, a second run of [main] at the same time, from the state
    the first run left, ends as the first did (it succeeds; or, when twelve
    months of thirty days before [now] is no date, both raise
    [OverflowError]), writes nothing and leaves the state as it found it. *)
Theorem main_twice_writes_nothing cap fuel now r :
  50 <= cap -> length (saved r) < fuel -> S (length (listing r)) < fuel ->
  newest_first (saved r) = true ->
  (forall pl, find named_target (listing r) = Some pl ->
              length (items_of r (pl_id pl)) < fuel) ->
  let first := main (spotify cap) fuel now r in
  let second := main (spotify cap) fuel now (final first) in
  let outcome := match Datetime.minus_days now (MONTHS_BACK * 30) with
                 | Some _ => Ok tt
                 | None => Raise OverflowError
                 end in
  result first = outcome
  /\ result second = outcome
  /\ writes (trace second) = []
  /\ final second = final first.
Proof.
  intros Hcap Hfs Hfl Hs Hfi first second.
  destruct (Datetime.minus_days now (MONTHS_BACK * 30)) as [cut|] eqn:Hc.
  2:{ subst first second.
      rewrite (main_overflow (spotify cap) fuel now r Hc).
      cbn [result final trace fst snd spotify current_user].
      rewrite (main_overflow (spotify cap) fuel now r Hc). done. }
  cbv zeta.
  pose proof (main_window_length now r) as Hwl.
  assert (Hfl' : length (listing r) < fuel) by lia.
  pose proof (main_spotify cap fuel now r cut Hcap Hfs Hfl' Hs Hc) as H.
  fold first in H.
  (* what the second run needs of the state the first run leaves *)
  assert (Hsecond : forall r' pl,
    saved r' = saved r -> length (listing r') < fuel -> listing r' <> [] ->
    find named_target (listing r') = Some pl ->
    same_set (present_ids (items_of r' (pl_id pl))) (main_window now r) = true ->
    length (items_of r' (pl_id pl)) < fuel ->
    let y := main (spotify cap) fuel now r' in
    result y = Ok tt /\ writes (trace y) = [] /\ final y = r').
  { intros r' pl Hsv Hl' Hne' Hfind' Hsame' Hfi' y.
    pose proof (main_spotify cap fuel now r' cut Hcap) as H'.
    rewrite Hsv in H'. specialize (H' Hfs Hl' Hs Hc). fold y in H'.
    rewrite Hfind' in H'.
    assert (Hw : main_window now r' = main_window now r)
      by (unfold main_window; rewrite Hsv; reflexivity).
    rewrite Hw in H'.
    destruct (listing r') as [|p0 rest']; [congruence|].
    cbn zeta in H'. destruct H' as (Hr' & Hfin' & Hw').
    destruct (update_spotify cap fuel (pl_id pl) (main_window now r) r')
      as [Hur Hu]; [lia|exact Hfi'|].
    rewrite Hsame' in Hu. destruct Hu as (Hf'' & Hw'' & _).
    rewrite Hr', Hw', Hfin'. done. }
  destruct (listing r) as [|pl0 rest] eqn:El.
  - destruct H as (Hr & Hfin & Hw).
    subst second. rewrite Hfin. fold first. rewrite Hfin. done.
  - destruct (find named_target (pl0 :: rest)) as [pl|] eqn:Ef.
    + cbn zeta in H. destruct H as (Hr & Hfin & Hw).
      destruct (update_settles cap fuel (pl_id pl) (main_window now r) r)
        as (Hur & _ & Hus & Hul & Ha); [lia|apply Hfi; reflexivity|lia|].
      rewrite <- Hfin in Hus, Hul, Ha.
      apply account_of_eq in Ha as (_ & Hsv & Hl & _).
      destruct (Hsecond (final first) pl) as (Hr2 & Hw2 & Hfin2);
        [exact Hsv|rewrite Hl, El; exact Hfl'|rewrite Hl, El; discriminate
        |rewrite Hl, El; exact Ef|exact Hus|exact Hul|].
      rewrite Hr. done.
    + cbn zeta in H. destruct H as (Hr & Hfin & Hw).
      set (c := create (me r) ROTATION_NAME r) in *.
      assert (Hitems : items_of c.2 c.1 = []).
      { unfold items_of, c. cbn [create fst snd contents].
        rewrite lookup_insert_eq. reflexivity. }
      destruct (update_settles cap fuel c.1 (main_window now r) c.2)
        as (Hur & _ & Hus & Hul & Ha);
        [lia|rewrite Hitems; cbn; lia|lia|].
      rewrite <- Hfin in Hus, Hul, Ha.
      apply account_of_eq in Ha as (_ & Hsv & Hl & _).
      unfold c in Hsv, Hl. cbn [create snd saved listing] in Hsv, Hl.
      rewrite El in Hl.
      destruct (Hsecond (final first)
                  {| pl_id := c.1; pl_name := ROTATION_NAME; pl_owner := me r |})
        as (Hr2 & Hw2 & Hfin2);
        [exact Hsv|rewrite Hl; cbn [length] in *; lia|rewrite Hl; discriminate
        | |exact Hus|exact Hul|].
      { rewrite Hl. cbn [find]. unfold named_target at 1. cbn [pl_name].
        rewrite String.eqb_refl. reflexivity. }
      rewrite Hr. done.
Qed.

Lemma main_twice_writes_nothing_witness :
  let first := main (spotify 50) 4 Examples.now Cases.unnamed in
  let second := main (spotify 50) 4 Examples.now (final first) in
  result first = Ok tt
  /\ writes (trace first)
     = [Call_playlist_create "me" ROTATION_NAME false;
        Call_replace_items "playlist-0" ["A"; "B"]]
  /\ result second = Ok tt
  /\ writes (trace second) = []
  /\ final second = final first.
Proof.
  intros first second.
  destruct (main_twice_writes_nothing 50 4 Examples.now Cases.unnamed)
    as (Hr & Hr2 & Hw2 & Hfin).
  - lia.
  - vm_compute. lia.
  - vm_compute. lia.
  - vm_compute. reflexivity.
  - intros pl Hpl. vm_compute in Hpl. discriminate.
  - split; [exact Hr|]. split; [vm_compute; reflexivity|].
    split; [exact Hr2|]. split; [exact Hw2|exact Hfin].
Defined.

(** ** The create calls of a run *)

Lemma trace_bind {St A B} (m : M St A) (k : A -> M St B) s :
  trace (bind m k s)
  = trace (m s)
    ++ match result (m s) with
       | Ok a => trace (k a (final (m s)))
       | _ => []
       end.
Proof.
  unfold bind. destruct (m s) as [[[a|e|] s1] t1]; cbn [result final trace fst snd].
  - destruct (k a s1) as [[r2 s2] t2]. reflexivity.
  - rewrite app_nil_r. reflexivity.
  - rewrite app_nil_r. reflexivity.
Qed.

Lemma creates_app (t1 t2 : list Event) :
  creates (t1 ++ t2) = creates t1 ++ creates t2.
Proof. apply filter_app. Qed.

Lemma creates_of_no_write (t : list Event) : writes t = [] -> creates t = [].
Proof. apply no_write_no_create. Qed.

Lemma creates_bounded pid (t : list Event) :
  Forall (bounded_write_on pid) t -> creates t = [].
Proof.
  unfold creates. induction 1 as [|e t He _ IH]; [done|].
  destruct e; cbn in He |- *; rewrite ?decide_False by (cbn; tauto);
    exact IH.
Qed.

Lemma creates_reads {P : Event -> Prop} (t : list Event) :
  (forall e, P e -> is_create e = false) -> Forall P t -> creates t = [].
Proof.
  intros HP. unfold creates. induction 1 as [|e t He _ IH]; [done|].
  cbn. rewrite decide_False; [exact IH|]. rewrite (HP e He). exact id.
Qed.

Lemma creates_find_or_create {St} (sp : Spotify St) fuel user name s :
  creates (trace (find_or_create_playlist sp fuel user name s)) = []
  \/ creates (trace (find_or_create_playlist sp fuel user name s))
     = [Call_playlist_create user name false].
Proof.
  pose proof (find_loop_no_write sp user name fuel 0 s) as Hw.
  apply creates_of_no_write in Hw.
  unfold find_or_create_playlist. rewrite trace_bind, creates_app, Hw.
  destruct (result (find_loop sp user name fuel 0 s)) as [[i|]|e|];
    cbn [app]; try (left; reflexivity).
  right. unfold sp_playlist_create.
  destruct (user_playlist_create sp user name false _) as [i s2].
  reflexivity.
Qed.

Lemma creates_update {St} (sp : Spotify St) fuel pid new s :
  creates (trace (update_playlist_if_needed sp fuel pid new s)) = [].
Proof. apply (creates_bounded pid), update_bounded. Qed.

(** X12.  For any client, the create calls of [main] are none, or one call
    that creates a private playlist of the name [ROTATION_NAME] for the
    current user. *)
Theorem main_creates_at_most_once :
  forall St (sp : Spotify St) fuel now s,
    let x := main sp fuel now s in
    let user_id := (current_user sp s).1 in
    creates (trace x) = []
    \/ creates (trace x) = [Call_playlist_create user_id ROTATION_NAME false].
Proof.
  intros St sp fuel now s x user_id. subst x. unfold main.
  rewrite trace_bind. unfold sp_current_user.
  destruct (current_user sp s) as [u s1] eqn:Eu.
  cbn [result final trace fst snd]. subst user_id. cbn [fst].
  rewrite creates_app. change (creates [Call_current_user]) with (@nil Event).
  cbn [app].
  rewrite trace_bind, creates_app.
  assert (Hfetch : creates (trace (fetch_liked_tracks sp fuel now MONTHS_BACK s1))
                   = []).
  { apply creates_of_no_write. apply fetch_liked_tracks_no_write. }
  rewrite Hfetch. cbn [app].
  destruct (result (fetch_liked_tracks sp fuel now MONTHS_BACK s1))
    as [ids|e|]; try (left; reflexivity).
  set (s2 := final (fetch_liked_tracks sp fuel now MONTHS_BACK s1)).
  rewrite trace_bind. cbn [print emit result final trace fst snd].
  rewrite creates_app. cbn [app]. change (creates [Printed _]) with (@nil Event).
  cbn [app].
  rewrite trace_bind. cbn [print emit result final trace fst snd].
  rewrite creates_app. change (creates [Printed _]) with (@nil Event).
  cbn [app].
  rewrite trace_bind, creates_app.
  assert (Hall : creates (trace (get_all_user_playlists sp fuel s2)) = []).
  { apply (creates_reads (P := listing_read)).
    - intros e (o & n & b & ->). reflexivity.
    - apply get_all_loop_reads. }
  rewrite Hall. cbn [app].
  destruct (result (get_all_user_playlists sp fuel s2)) as [playlists|e|];
    try (left; reflexivity).
  set (s3 := final (get_all_user_playlists sp fuel s2)).
  rewrite trace_bind, creates_app.
  destruct (length playlists <? 1)%nat eqn:El.
  { cbn [print emit ret result final trace fst snd negb app].
    left. reflexivity. }
  cbn [ret result final trace fst snd negb app].
  change (creates []) with (@nil Event). cbn [app].
  rewrite trace_bind. cbn [print emit result final trace fst snd].
  rewrite creates_app. change (creates [Printed _]) with (@nil Event).
  cbn [app].
  rewrite trace_bind, creates_app.
  rewrite (creates_of_no_write _ (select_target_no_write playlists s3)).
  cbn [app].
  destruct (result (select_target playlists s3)) as [[target|]|e|];
    try (left; reflexivity).
  - rewrite trace_bind. cbn [print emit result final trace fst snd].
    rewrite creates_app. change (creates [Printed _]) with (@nil Event).
    cbn [app]. left. apply creates_update.
  - rewrite trace_bind. cbn [print emit result final trace fst snd].
    rewrite creates_app. change (creates [Printed _]) with (@nil Event).
    cbn [app]. rewrite trace_bind, creates_app.
    destruct (result (find_or_create_playlist sp fuel u ROTATION_NAME _))
      as [target|e|].
    + rewrite creates_update, app_nil_r. apply creates_find_or_create.
    + rewrite app_nil_r. apply creates_find_or_create.
    + rewrite app_nil_r. apply creates_find_or_create.
Qed.

(** ** advanced-search.py: the filter *)

Import AdvancedSearch.

Lemma filter_loop_spec start end_ (tracks : list SavedItem) : forall filtered,
  filter_loop start end_ tracks filtered
  = if forallb parses tracks
    then Ok (filtered ++ List.filter (in_range start end_) tracks)
    else Raise ValueError.
Proof.
  induction tracks as [|item rest IH]; intros filtered.
  - cbn. rewrite app_nil_r. reflexivity.
  - cbn [filter_loop forallb List.filter]. unfold parses at 1, in_range at 1.
    destruct (Datetime.strptime (si_added_at item)) as [t|]; [|reflexivity].
    cbn [andb].
    destruct (before start t); cbn [negb andb]; [apply IH|].
    destruct (after end_ t); cbn [negb]; [apply IH|].
    rewrite IH. destruct (forallb parses rest); [|reflexivity].
    rewrite <- app_assoc. reflexivity.
Qed.

Lemma in_range_parses start end_ item :
  in_range start end_ item = true -> parses item = true.
Proof.
  unfold in_range, parses. destruct (Datetime.strptime _); done.
Qed.

Lemma forallb_filter_parses start end_ (l : list SavedItem) :
  forallb parses (List.filter (in_range start end_) l) = true.
Proof.
  apply forallb_forall. intros item Hi. apply filter_In in Hi as [_ Hi].
  exact (in_range_parses _ _ _ Hi).
Qed.

Lemma filter_filter_same {A} (f : A -> bool) (l : list A) :
  List.filter f (List.filter f l) = List.filter f l.
Proof.
  induction l as [|x l IH]; [reflexivity|].
  cbn [List.filter]. destruct (f x) eqn:E; [|exact IH].
  cbn [List.filter]. rewrite E, IH. reflexivity.
Qed.

Lemma forallb_false_item {A} (f : A -> bool) (l : list A) :
  forallb f l = false -> exists x, In x l /\ f x = false.
Proof.
  induction l as [|x l IH]; [discriminate|]. cbn [forallb].
  destruct (f x) eqn:E.
  - intros H. destruct (IH H) as (y & Hy & Hf). exists y. split; [right|]; done.
  - intros _. exists x. split; [left|]; done.
Qed.

(** X13.  [filter_by_date] raises exactly when the timestamp of some entry
    of its input does not parse ([strptime] raising [ValueError] on it),
    also an entry outside of the range;
    otherwise it returns the entries whose time [t] satisfies
    [start <= t <= end], both bounds inclusive and a missing bound no
    constraint, in the order of the input. *)
Theorem filter_by_date_spec (tracks : list SavedItem) start end_ :
  (filter_by_date tracks start end_ = Raise ValueError
   <-> exists item, In item tracks
                    /\ Datetime.strptime (si_added_at item) = None)
  /\ (forallb parses tracks = true ->
      filter_by_date tracks start end_
      = Ok (List.filter (in_range start end_) tracks))
  /\ (forall filtered item,
        filter_by_date tracks start end_ = Ok filtered ->
        (In item filtered <->
         In item tracks
         /\ exists t, Datetime.strptime (si_added_at item) = Some t
                      /\ match start with Some s => (s <= t)%Z | None => True end
                      /\ match end_ with Some e => (t <= e)%Z | None => True end)).
Proof.
  unfold filter_by_date. rewrite filter_loop_spec. cbn [app].
  split; [|split].
  - destruct (forallb parses tracks) eqn:E.
    + split; [discriminate|]. intros (item & Hi & Hn).
      rewrite forallb_forall in E. specialize (E item Hi).
      unfold parses in E. rewrite Hn in E. discriminate.
    + split; [|reflexivity]. intros _.
      apply forallb_false_item in E. destruct E as (item & Hi & Hp).
      exists item. split; [exact Hi|]. unfold parses in Hp.
      destruct (Datetime.strptime _); [discriminate|reflexivity].
  - intros ->. reflexivity.
  - intros filtered item. destruct (forallb parses tracks); [|discriminate].
    intros [= <-]. rewrite filter_In. unfold in_range.
    split.
    + intros [Hi Hr]. split; [exact Hi|].
      destruct (Datetime.strptime (si_added_at item)) as [t|]; [|discriminate].
      exists t. split; [reflexivity|].
      apply andb_prop in Hr as [Hb Ha].
      apply negb_true_iff in Hb, Ha. unfold before, after in *.
      destruct start, end_; repeat split;
        try apply Z.ltb_ge in Hb; try apply Z.ltb_ge in Ha; lia.
    + intros [Hi (t & Ht & Hs & He)]. split; [exact Hi|]. rewrite Ht.
      apply andb_true_intro. split; apply negb_true_iff; unfold before, after;
        [destruct start|destruct end_]; try reflexivity; apply Z.ltb_ge; lia.
Qed.

Lemma filter_by_date_fixed (tracks : list SavedItem) start end_ filtered :
  filter_by_date tracks start end_ = Ok filtered ->
  filter_by_date filtered start end_ = Ok filtered
  /\ filtered = List.filter (in_range start end_) tracks.
Proof.
  unfold filter_by_date. rewrite !filter_loop_spec. cbn [app].
  destruct (forallb parses tracks); [|discriminate]. intros [= <-].
  rewrite forallb_filter_parses, filter_filter_same. done.
Qed.

Lemma filter_sublist {A} (f : A -> bool) (l : list A) :
  sublist (List.filter f l) l.
Proof.
  induction l as [|x l IH]; [constructor|].
  cbn [List.filter]. destruct (f x); constructor; exact IH.
Qed.

(** X14.  A result of [filter_by_date] is a fixed point of the same filter,
    it is a sublist of the input (order and multiplicity kept), and with no
    bound at all it is the input. *)
Theorem filter_by_date_again (tracks : list SavedItem) start end_ filtered :
  filter_by_date tracks start end_ = Ok filtered ->
  filter_by_date filtered start end_ = Ok filtered
  /\ sublist filtered tracks
  /\ (start = None -> end_ = None -> filtered = tracks).
Proof.
  intros H. destruct (filter_by_date_fixed _ _ _ _ H) as [Hi ->].
  split; [exact Hi|]. split; [apply filter_sublist|].
  intros -> ->. unfold filter_by_date in H. rewrite filter_loop_spec in H.
  destruct (forallb parses tracks) eqn:E; [|discriminate].
  clear H Hi. induction tracks as [|item rest IH]; [reflexivity|].
  cbn [forallb] in E. apply andb_prop in E as [Hp E].
  cbn [List.filter]. unfold in_range at 1. unfold parses in Hp.
  destruct (Datetime.strptime (si_added_at item)); [|discriminate].
  cbn. f_equal. exact (IH E).
Qed.

Lemma filter_by_date_again_witness :
  let filtered := [Examples.entry "2024-03-01T00:00:00Z" "B"] in
  filter_by_date Cases.shelf (Some Cases.february) (Some Cases.april)
  = Ok filtered
  /\ filter_by_date filtered (Some Cases.february) (Some Cases.april)
     = Ok filtered
  /\ sublist filtered Cases.shelf.
Proof.
  intros filtered.
  assert (H : filter_by_date Cases.shelf (Some Cases.february)
                (Some Cases.april) = Ok filtered)
    by (vm_compute; reflexivity).
  destruct (filter_by_date_again _ _ _ _ H) as (Hi & Hs & _).
  split; [exact H|]. split; [exact Hi|exact Hs].
Defined.

(** ** advanced-search.py: the reader *)

Lemma scan_batch_app start end_ (a b : list SavedItem) : forall results pbar,
  forallb (not_before start) a = true ->
  scan_batch start end_ (a ++ b) results pbar
  = scan_batch start end_ b
      (results ++ List.filter (in_range start end_) a)
      (pbar + length (List.filter (in_range start end_) a)).
Proof.
  induction a as [|item a IH]; intros results pbar H.
  - cbn. rewrite app_nil_r, Nat.add_0_r. reflexivity.
  - cbn [forallb] in H. apply andb_prop in H as [Hi Ha].
    cbn [app scan_batch List.filter].
    assert (Hr : in_range start end_ item
                 = match Datetime.strptime (si_added_at item) with
                   | Some t => negb (before start t) && negb (after end_ t)
                   | None => false
                   end) by reflexivity.
    unfold not_before in Hi.
    destruct (Datetime.strptime (si_added_at item)) as [t|]; [|discriminate].
    apply negb_true_iff in Hi. rewrite Hi in Hr |- *.
    cbn [negb andb] in Hr. rewrite Hr.
    destruct (after end_ t); cbn [negb].
    + exact (IH _ _ Ha).
    + rewrite (IH _ _ Ha). cbn [length].
      rewrite <- app_assoc. f_equal. lia.
Qed.

Lemma scan_batch_all start end_ (a : list SavedItem) results pbar :
  forallb (not_before start) a = true ->
  scan_batch start end_ a results pbar
  = Ok (Continue (results ++ List.filter (in_range start end_) a)
          (pbar + length (List.filter (in_range start end_) a))).
Proof.
  intros H. rewrite <- (app_nil_r a) at 1.
  rewrite (scan_batch_app _ _ _ _ _ _ H). reflexivity.
Qed.

Lemma scan_batch_stop start end_ item rest results pbar :
  not_before start item = false ->
  scan_batch start end_ (item :: rest) results pbar
  = if parses item then Ok (Return results pbar) else Raise ValueError.
Proof.
  unfold not_before, parses. cbn [scan_batch].
  destruct (Datetime.strptime (si_added_at item)) as [t|]; [|reflexivity].
  intros H. apply negb_false_iff in H. rewrite H. reflexivity.
Qed.

Lemma filter_app_list {A} (f : A -> bool) (a b : list A) :
  List.filter f (a ++ b) = List.filter f a ++ List.filter f b.
Proof. apply List.filter_app. Qed.

(** The loop on the reference service with full pages, from an offset after
    which the library reads [pre ++ post]: [pre] parsing and not before
    [start], [post] empty or headed by an entry that is not so. *)
Lemma liked_loop_library cap start end_ r :
  50 <= cap -> forall fuel offset results pbar pre post,
  drop offset (saved r) = pre ++ post ->
  forallb (not_before start) pre = true ->
  liked_stops start post = true ->
  length pre / 50 < fuel ->
  let x := liked_loop (library cap) start end_ fuel offset results pbar r in
  result x
  = liked_stop (results ++ List.filter (in_range start end_) pre)
      (pbar + length (List.filter (in_range start end_) pre)) post
  /\ final x = r
  /\ length (trace x) <= length pre / 50 + 1.
Proof.
  intros Hcap. induction fuel as [|fuel IH];
    intros offset results pbar pre post Hd Hpre Hpost Hf; [lia|].
  cbn [liked_loop].
  rewrite (bind_ok _ _ r _ _ _ eq_refl).
  cbn [b_items b_next library current_user_saved_tracks
       result final trace fst snd].
  unfold limit, next_link.
  assert (Hpage : page cap 50 offset (saved r) = take 50 (pre ++ post)).
  { unfold page. rewrite Hd. replace (50 `min` cap) with 50 by lia.
    reflexivity. }
  replace (50 `min` cap) with 50 by lia.
  assert (Hlen : length (saved r) - offset = length pre + length post).
  { rewrite <- length_drop, Hd, length_app. reflexivity. }
  destruct (page cap 50 offset (saved r)) as [|i items] eqn:E.
  { apply page_nil in E; [|lia|lia]. rewrite E in Hd.
    symmetry in Hd. apply app_eq_nil in Hd as [-> ->].
    cbn. rewrite app_nil_r, Nat.add_0_r. repeat split. lia. }
  rewrite <- E in *.
  assert (Hne : 0 < length (page cap 50 offset (saved r)))
    by (rewrite E; cbn; lia).
  clear i items E.
  destruct (decide (50 <= length pre \/ post = [])) as [Hcont|Hstop].
  - assert (Hp : page cap 50 offset (saved r) = take 50 pre).
    { rewrite Hpage. destruct Hcont as [H| ->].
      - apply take_app_le. exact H.
      - rewrite app_nil_r. reflexivity. }
    rewrite Hp in *. clear Hpage.
    rewrite (bind_ok _ _ r
               (Continue (results ++ List.filter (in_range start end_) (take 50 pre))
                  (pbar + length (List.filter (in_range start end_) (take 50 pre))))
               r []).
    2:{ unfold lift. rewrite scan_batch_all by (apply forallb_take; exact Hpre).
        reflexivity. }
    cbn [result final trace fst snd app].
    assert (Hsplit : List.filter (in_range start end_) pre
                     = List.filter (in_range start end_) (take 50 pre)
                       ++ List.filter (in_range start end_) (drop 50 pre)).
    { rewrite <- filter_app_list, take_drop. reflexivity. }
    destruct (Nat.ltb_spec (offset + 50) (length (saved r))) as [Hlt|Hge].
    + (* items remain: next is set *)
      assert (H50 : 50 <= length pre).
      { destruct Hcont as [H|H]; [exact H|].
        rewrite H in Hlen. cbn [length] in Hlen. lia. }
      destruct (IH (offset + 50)
                   (results ++ List.filter (in_range start end_) (take 50 pre))
                   (pbar + length (List.filter (in_range start end_) (take 50 pre)))
                   (drop 50 pre) post) as (Hr & Hfin & Hlen').
      * rewrite <- drop_drop, Hd, drop_app_le by exact H50. reflexivity.
      * apply forallb_drop. exact Hpre.
      * exact Hpost.
      * rewrite length_drop.
        pose proof (Nat.div_mod_eq (length pre) 50).
        pose proof (Nat.mod_upper_bound (length pre) 50).
        pose proof (Nat.div_mod_eq (length pre - 50) 50).
        pose proof (Nat.mod_upper_bound (length pre - 50) 50).
        lia.
      * rewrite Hr, Hfin. rewrite Hsplit, length_app, app_assoc, Nat.add_assoc.
        split; [reflexivity|]. split; [reflexivity|].
        rewrite length_drop in Hlen'. cbn [length].
        pose proof (Nat.div_mod_eq (length pre) 50).
        pose proof (Nat.mod_upper_bound (length pre) 50).
        pose proof (Nat.div_mod_eq (length pre - 50) 50).
        pose proof (Nat.mod_upper_bound (length pre - 50) 50).
        lia.
    + (* the last page: next is None *)
      assert (Hpost0 : post = [] /\ length pre <= 50).
      { destruct Hcont as [H| ->];
          [|cbn [length] in Hlen; split; [reflexivity|lia]].
        destruct post; [split; [reflexivity|lia]|cbn [length] in Hlen; lia]. }
      destruct Hpost0 as [-> H50].
      rewrite take_ge by exact H50. cbn. repeat split. lia.
  - assert (Hlt : length pre < 50)
      by (apply Nat.nlt_ge; intros H; apply Hstop; left; lia).
    destruct post as [|item post];
      [exfalso; apply Hstop; right; reflexivity|].
    clear Hstop.
    cbn [liked_stops] in Hpost. apply negb_true_iff in Hpost.
    rewrite take_app in Hpage. rewrite take_ge in Hpage by lia.
    destruct (50 - length pre) as [|m] eqn:Em; [lia|]. cbn [take] in Hpage.
    rewrite Hpage. cbn [liked_stop].
    unfold lift. rewrite (scan_batch_app _ _ _ _ _ _ Hpre).
    rewrite (scan_batch_stop _ _ _ _ _ _ Hpost).
    destruct (parses item).
    + rewrite (bind_ok _ _ r (Return _ _) r [] eq_refl).
      cbn. repeat split. lia.
    + rewrite (bind_raise _ _ r ValueError r [] eq_refl).
      cbn. repeat split. lia.
Qed.

Lemma not_before_in_window s item :
  not_before (Some s) item = in_window s item.
Proof.
  unfold not_before, in_window, before.
  destruct (Datetime.strptime _) as [t|]; [|reflexivity].
  destruct (Z.ltb_spec t s), (Z.leb_spec s t); try reflexivity; lia.
Qed.

Lemma not_before_none item : not_before None item = parses item.
Proof.
  unfold not_before, parses, before.
  destruct (Datetime.strptime _); reflexivity.
Qed.

Lemma newest_first_parses (l : list SavedItem) : forall prev,
  newest_first_from prev l = true -> forallb parses l = true.
Proof.
  induction l as [|item l IH]; intros prev H; [reflexivity|].
  cbn [newest_first_from] in H. cbn [forallb]. unfold parses at 1.
  destruct (Datetime.strptime (si_added_at item)); [|discriminate].
  apply andb_prop in H as [_ H]. exact (IH _ H).
Qed.

Lemma filter_filter_implies {A} (f g : A -> bool) (l : list A) :
  (forall x, f x = true -> g x = true) ->
  List.filter f (List.filter g l) = List.filter f l.
Proof.
  intros Hfg. induction l as [|x l IH]; [reflexivity|].
  cbn [List.filter]. destruct (g x) eqn:G.
  - cbn [List.filter]. rewrite IH. reflexivity.
  - destruct (f x) eqn:F; [|exact IH]. rewrite (Hfg x F) in G. discriminate.
Qed.

Lemma in_range_not_before start end_ item :
  in_range start end_ item = true -> not_before start item = true.
Proof.
  unfold in_range, not_before. destruct (Datetime.strptime _); [|done].
  intros H. apply andb_prop in H as [H _]. exact H.
Qed.

Lemma forallb_ext_eq {A} (f g : A -> bool) (l : list A) :
  (forall x, f x = g x) -> forallb f l = forallb g l.
Proof.
  intros H. induction l as [|x l IH]; [reflexivity|].
  cbn [forallb]. rewrite H, IH. reflexivity.
Qed.

(** The walk of a library sorted newest first. *)
Lemma liked_split start (l : list SavedItem) :
  newest_first l = true ->
  exists pre post,
    l = pre ++ post
    /\ forallb (not_before start) pre = true
    /\ liked_stops start post = true
    /\ (forall results pbar, liked_stop results pbar post = Ok (results, pbar))
    /\ forall end_,
         List.filter (in_range start end_) l
         = List.filter (in_range start end_) pre.
Proof.
  intros Hs. destruct start as [s|].
  - destruct (newest_first_split s l None Hs)
      as (pre & post & Hl & Hpre & Hpost & Hfil).
    exists pre, post. split; [exact Hl|]. split.
    { rewrite (forallb_ext_eq _ (in_window s)); [exact Hpre|].
      intros x. apply not_before_in_window. }
    split; [|split].
    + destruct post as [|item post]; [reflexivity|]. cbn.
      rewrite not_before_in_window, (older_not_in_window _ _ Hpost).
      reflexivity.
    + intros results pbar. destruct post as [|item post]; [reflexivity|].
      cbn. unfold older in Hpost. unfold parses.
      destruct (Datetime.strptime _); [reflexivity|discriminate].
    + intros end_. rewrite <- Hfil.
      rewrite filter_filter_implies; [reflexivity|].
      intros x Hx. rewrite <- not_before_in_window.
      exact (in_range_not_before _ _ _ Hx).
  - exists l, []. split; [rewrite app_nil_r; reflexivity|]. split.
    { rewrite (forallb_ext_eq _ parses); [exact (newest_first_parses _ _ Hs)|].
      intros x. apply not_before_none. }
    done.
Qed.

(** X15.  On the reference service with pages of 50 and a library sorted
    newest first, [get_liked_tracks] returns the entries of the library
    within the range, which is what [filter_by_date] gives on the whole
    library; it leaves the service as it was and issues at most one request
    per 50 entries and one more. *)
Theorem get_liked_tracks_in_range cap fuel start end_ r :
  50 <= cap -> length (saved r) / 50 < fuel ->
  newest_first (saved r) = true ->
  let x := get_liked_tracks (library cap) fuel start end_ r in
  result x = Ok (List.filter (in_range start end_) (saved r))
  /\ result x = filter_by_date (saved r) start end_
  /\ final x = r
  /\ length (trace x) <= length (saved r) / 50 + 1.
Proof.
  intros Hcap Hf Hs x.
  destruct (liked_split start (saved r) Hs)
    as (pre & post & Hl & Hpre & Hpost & Hstop & Hfil).
  assert (Hdiv : length pre / 50 <= length (saved r) / 50).
  { apply Nat.Div0.div_le_mono. rewrite Hl, length_app. lia. }
  destruct (liked_loop_library cap start end_ r Hcap fuel 0 [] 0 pre post)
    as (Hr & Hfin & Hlen); [exact Hl|exact Hpre|exact Hpost|lia|].
  rewrite Hstop in Hr. cbn [app Nat.add] in Hr.
  assert (Hx : x = (Ok (List.filter (in_range start end_) pre), r,
                    trace (liked_loop (library cap) start end_ fuel 0 [] 0 r)
                    ++ [])).
  { subst x. unfold get_liked_tracks.
    rewrite (bind_ok _ _ _ _ _ _ (run_ok _ _ _ Hr Hfin)). reflexivity. }
  rewrite Hx. cbn [result final trace fst snd]. rewrite app_nil_r, Hfil.
  split; [reflexivity|]. split; [|split; [reflexivity|lia]].
  unfold filter_by_date. rewrite filter_loop_spec.
  rewrite (newest_first_parses _ _ Hs), <- Hfil. reflexivity.
Qed.

Lemma get_liked_tracks_in_range_witness :
  let r := Examples.account Cases.shelf [] ∅ in
  let x := get_liked_tracks (library 50) 1 (Some Cases.february)
             (Some Cases.april) r in
  result x = Ok [Examples.entry "2024-03-01T00:00:00Z" "B"]
  /\ result x
     = filter_by_date Cases.shelf (Some Cases.february) (Some Cases.april)
  /\ final x = r
  /\ length (trace x) <= 1.
Proof.
  intros r x.
  destruct (get_liked_tracks_in_range 50 1 (Some Cases.february)
              (Some Cases.april) r) as (Hr & Hf & Hfin & Hlen).
  - lia.
  - vm_compute. lia.
  - vm_compute. reflexivity.
  - fold x in Hr, Hf, Hfin, Hlen.
    split; [rewrite Hr; vm_compute; reflexivity|].
    split; [exact Hf|]. split; [exact Hfin|exact Hlen].
Defined.

(** X16.  On the reference service with pages of 50, when the library starts
    with entries not before the start date and goes on with an entry before
    it, [get_liked_tracks] returns the entries of that prefix within the
    range, whatever follows the older entry (sorted, parsing or not), and it
    issues at most one request per 50 entries of the prefix and one more. *)
Theorem get_liked_tracks_stops_at_start cap fuel start end_ r pre old rest :
  50 <= cap -> length pre / 50 < fuel ->
  saved r = pre ++ old :: rest ->
  forallb (in_window start) pre = true ->
  older start old = true ->
  let x := get_liked_tracks (library cap) fuel (Some start) end_ r in
  result x = Ok (List.filter (in_range (Some start) end_) pre)
  /\ length (trace x) <= length pre / 50 + 1.
Proof.
  intros Hcap Hf Hl Hpre Hold x.
  destruct (liked_loop_library cap (Some start) end_ r Hcap fuel 0 [] 0 pre
              (old :: rest)) as (Hr & Hfin & Hlen); [exact Hl| | |exact Hf|].
  { rewrite (forallb_ext_eq _ (in_window start)); [exact Hpre|].
    intros y. apply not_before_in_window. }
  { cbn. rewrite not_before_in_window, (older_not_in_window _ _ Hold).
    reflexivity. }
  assert (Hp : parses old = true).
  { unfold older in Hold. unfold parses.
    destruct (Datetime.strptime _); [reflexivity|discriminate]. }
  cbn [liked_stop app Nat.add] in Hr. rewrite Hp in Hr.
  subst x. unfold get_liked_tracks.
  rewrite (bind_ok _ _ _ _ _ _ (run_ok _ _ _ Hr Hfin)).
  cbn [result final trace fst snd ret]. rewrite app_nil_r. done.
Qed.

Lemma get_liked_tracks_stops_at_start_witness :
  let r := Examples.account Cases.long_shelf [] ∅ in
  let x := get_liked_tracks (library 50) 3 (Some Cases.february) None r in
  result x = Ok (replicate 120 (Examples.entry "2024-03-01T00:00:00Z" "B"))
  /\ length (trace x) <= 3.
Proof.
  intros r x.
  destruct (get_liked_tracks_stops_at_start 50 3 Cases.february None r
              (replicate 120 (Examples.entry "2024-03-01T00:00:00Z" "B"))
              (Examples.entry "2020-01-01T00:00:00Z" "D")
              (replicate 299 (Examples.entry "2020-01-01T00:00:00Z" "D")))
    as (Hr & Hlen).
  - lia.
  - vm_compute. lia.
  - reflexivity.
  - vm_compute. reflexivity.
  - vm_compute. reflexivity.
  - fold x in Hr, Hlen. split; [rewrite Hr; vm_compute; reflexivity|].
    vm_compute in Hlen |- *. exact Hlen.
Defined.

(** The count of the progress bar follows the results. *)
Lemma scan_batch_pbar start end_ (items : list SavedItem) :
  forall results pbar,
  pbar = length results ->
  match scan_batch start end_ items results pbar with
  | Ok (Continue results' pbar') | Ok (Return results' pbar') =>
      pbar' = length results'
  | _ => True
  end.
Proof.
  induction items as [|item rest IH]; intros results pbar H; [exact H|].
  cbn [scan_batch].
  destruct (Datetime.strptime (si_added_at item)) as [t|]; [|exact I].
  destruct (before start t); [exact H|].
  destruct (after end_ t); [exact (IH _ _ H)|].
  apply IH. rewrite length_app. cbn [length]. lia.
Qed.

Lemma liked_loop_pbar {St} (sp : Client St) start end_ fuel :
  forall offset results pbar s,
  pbar = length results ->
  match result (liked_loop sp start end_ fuel offset results pbar s) with
  | Ok (results', pbar') => pbar' = length results'
  | _ => True
  end.
Proof.
  induction fuel as [|fuel IH]; intros offset results pbar s H; [exact I|].
  cbn [liked_loop]. unfold bind at 1. unfold sp_saved_tracks.
  destruct (current_user_saved_tracks sp limit offset s) as [batch s1].
  destruct (b_items batch) as [|i items] eqn:E; [exact H|].
  unfold bind, lift.
  pose proof (scan_batch_pbar start end_ (i :: items) results pbar H) as Hs.
  destruct (scan_batch start end_ (i :: items) results pbar)
    as [[res p|res p]|e|]; try exact I; [|exact Hs].
  destruct (b_next batch); [|exact Hs].
  specialize (IH (offset + limit) res p s1 Hs).
  destruct (liked_loop _ _ _ _ _ _ _ _) as [[r s2] t2]. exact IH.
Qed.

(** X17.  For any client, when the loop of [get_liked_tracks] ends normally,
    the count of its progress bar is the number of entries it returns, and
    [get_liked_tracks] returns those entries. *)
Theorem progress_bar_counts_results {St} (sp : Client St)
    fuel start end_ s results pbar :
  result (liked_loop sp start end_ fuel 0 [] 0 s) = Ok (results, pbar) ->
  pbar = length results
  /\ result (get_liked_tracks sp fuel start end_ s) = Ok results.
Proof.
  intros H.
  pose proof (liked_loop_pbar sp start end_ fuel 0 [] 0 s eq_refl) as Hp.
  rewrite H in Hp. split; [exact Hp|].
  unfold get_liked_tracks, bind.
  destruct (liked_loop sp start end_ fuel 0 [] 0 s) as [[r0 s1] t1].
  cbn [result fst] in H. subst r0. reflexivity.
Qed.

Lemma progress_bar_counts_results_witness :
  let r := Examples.account Cases.shelf [] ∅ in
  3 = length [Examples.entry "2024-03-01T00:00:00Z" "B";
              Examples.entry "2024-01-01T00:00:00Z" "C";
              Examples.entry "2020-01-01T00:00:00Z" "D"]
  /\ result (get_liked_tracks (library 50) 1 None (Some Cases.april) r)
     = Ok [Examples.entry "2024-03-01T00:00:00Z" "B";
           Examples.entry "2024-01-01T00:00:00Z" "C";
           Examples.entry "2020-01-01T00:00:00Z" "D"].
Proof.
  intros r.
  apply (progress_bar_counts_results (library 50) 1 None (Some Cases.april) r).
  vm_compute. reflexivity.
Defined.
